(** * Bohr-model transition energy calculator (Assignment1.cpp)

    A shallow embedding of [src/Assignment1/Assignment1.cpp]: the console
    readers [getint], [icompare], [getBetweenTwoStringSetOptions],
    [getEnergyType], [getBool], the physics function [calculateBohrEnergy]
    over IEEE-754 binary64 values, and the interaction loop of [main]. *)

From Stdlib Require Import ZArith List String Ascii Bool Lia Reals Lra.
From Stdlib Require Import Floats.SpecFloat.
Import ListNotations.

Local Open Scope Z_scope.

(** ** Characters, as the C locale sees them *)

Module Chars.

Definition code (c : ascii) : Z := Z.of_nat (nat_of_ascii c).

(** [std::isspace] in the C locale: space, and the controls 9..13. *)
Definition isspace (c : ascii) : bool :=
  (code c =? 32) || ((9 <=? code c) && (code c <=? 13)).

Definition isdigit (c : ascii) : bool :=
  (48 <=? code c) && (code c <=? 57).

Definition digit_value (c : ascii) : Z := code c - 48.

Definition isupper (c : ascii) : bool :=
  (65 <=? code c) && (code c <=? 90).

(** [std::tolower] in the C locale: only 'A'..'Z' move, by 32. *)
Definition tolower (c : ascii) : ascii :=
  if isupper c then ascii_of_nat (nat_of_ascii c + 32) else c.

End Chars.

(** ** Formatted extraction from a [std::stringstream] *)

Module Stream.
Import Chars.

Definition LLONG_MIN : Z := - 2 ^ 63.
Definition LLONG_MAX : Z := 2 ^ 63 - 1.

(** Leading white space is skipped by the sentry of every [operator>>]. *)
Fixpoint skipws (s : string) : string :=
  match s with
  | String c s' => if isspace c then skipws s' else s
  | EmptyString => EmptyString
  end.

(** The longest run of decimal digits at the front, and what follows. *)
Fixpoint read_digits (s : string) : list Z * string :=
  match s with
  | String c s' =>
      if isdigit c
      then let (ds, r) := read_digits s' in (digit_value c :: ds, r)
      else ([], s)
  | EmptyString => ([], EmptyString)
  end.

Definition decimal (ds : list Z) : Z :=
  fold_left (fun acc d => 10 * acc + d) ds 0.

(** An optional sign opens the numeric field. *)
Definition read_sign (s : string) : bool * string :=
  match s with
  | String c s' =>
      if Ascii.eqb c "-"%char then (true, s')
      else if Ascii.eqb c "+"%char then (false, s')
      else (false, s)
  | EmptyString => (false, EmptyString)
  end.

(** State of the stream after [input >> possibleInteger]: the number
    stored, whether [failbit] is set, and the unread characters. *)
Record extracted : Type :=
  { stored : Z; failbit : bool; unread : string }.

(** [operator>>(long long&)] on a fresh stream holding [s], for a
    variable that holds [old].  When only white space is left the sentry
    fails and the variable keeps its value.  Otherwise [num_get] runs,
    with its C++11 rules: a field without digits stores 0 and fails, a
    field out of range stores the nearest limit and fails. *)
Definition extract_long_long (old : Z) (s : string) : extracted :=
  match skipws s with
  | EmptyString => {| stored := old; failbit := true; unread := EmptyString |}
  | String _ _ as s1 =>
      let (neg, s2) := read_sign s1 in
      let (ds, s3) := read_digits s2 in
      match ds with
      | [] => {| stored := 0; failbit := true; unread := s3 |}
      | _ :: _ =>
          let v := if neg then - decimal ds else decimal ds in
          if v <? LLONG_MIN
          then {| stored := LLONG_MIN; failbit := true; unread := s3 |}
          else if LLONG_MAX <? v
          then {| stored := LLONG_MAX; failbit := true; unread := s3 |}
          else {| stored := v; failbit := false; unread := s3 |}
      end
  end.

(** The run of characters up to the next white space. *)
Fixpoint read_word (s : string) : string :=
  match s with
  | String c s' => if isspace c then EmptyString else String c (read_word s')
  | EmptyString => EmptyString
  end.

(** [input >> emptyTest] after the number: a stream whose [failbit] is
    set extracts nothing and leaves the fresh (empty) string untouched. *)
Definition extract_string (x : extracted) : string :=
  if failbit x then EmptyString else read_word (skipws (unread x)).

Definition empty (s : string) : bool :=
  match s with EmptyString => true | String _ _ => false end.

End Stream.

(** ** The console: [std::cin] as the lines still to be read, [std::cout]
    as the items written so far *)

Inductive EnergyType : Type := ELECTRON_VOLT | JOULES.

Inductive output : Type :=
| Text (s : string)            (* a string literal, without its newlines *)
| NL                           (* "\n" *)
| Endl                         (* std::endl *)
| Int (z : Z)                  (* operator<< of an int or unsigned int *)
| Double3 (x : spec_float).    (* setprecision(3), then operator<< of a double *)

Record console : Type := { cin : list string; cout : list output }.

Definition print (o : list output) (w : console) : console :=
  {| cin := cin w; cout := cout w ++ o |}.

(** How a reading loop [while (std::getline(std::cin, line)) { ... }] is
    left: through its [break], or because [getline] failed at the end of
    the input.  In the second case the function still reaches its [return]
    statement; the variable returned holds [None] when it was never
    assigned. *)
Inductive returned (A : Type) : Type :=
| Break (v : A)
| Eof (v : option A).
Arguments Break {A} v.
Arguments Eof {A} v.

(** ** Input handling *)

Definition INT_MIN : Z := - 2 ^ 31.
Definition INT_MAX : Z := 2 ^ 31 - 1.

(** Conversion of a [long long] to [int] at [return possibleInteger]. *)
Definition to_int (v : Z) : Z := (v + 2 ^ 31) mod 2 ^ 32 - 2 ^ 31.

(** Conversion of an [int] to [unsigned int]. *)
Definition to_unsigned (v : Z) : Z := v mod 2 ^ 32.

Definition not_valid : list output :=
  [Text "Sorry, the value you inputted was not valid."; Endl].

(** [possibleInteger = LLONG_MIN; std::stringstream input(line);
    input >> possibleInteger;] *)
Definition input_of (line : string) : Stream.extracted :=
  Stream.extract_long_long Stream.LLONG_MIN line.

(** The test of one line in the body of [getint]'s loop. *)
Definition getint_accepts (min max : Z) (line : string) : bool :=
  let input := input_of line in
  if (min <=? Stream.stored input) && (Stream.stored input <=? max)
  then Stream.empty (Stream.extract_string input)
  else false.

Fixpoint getint_loop (min max : Z) (lines : list string)
    (possibleInteger : option Z) (out : list output) : returned Z * console :=
  match lines with
  | [] => (Eof possibleInteger, {| cin := []; cout := out |})
  | line :: lines' =>
      let v := Stream.stored (input_of line) in
      if getint_accepts min max line
      then (Break v, {| cin := lines'; cout := out |})
      else getint_loop min max lines' (Some v)
             (out ++ not_valid ++
              [Text "Input an integer between "; Int min; Text " and ";
               Int max; Text ":"; NL])
  end.

Definition map_returned {A B : Type} (f : A -> B) (r : returned A) : returned B :=
  match r with
  | Break v => Break (f v)
  | Eof v => Eof (option_map f v)
  end.

Definition getint (min max : Z) (w : console) : returned Z * console :=
  let (r, w') := getint_loop min max (cin w) None (cout w) in
  (map_returned to_int r, w').

(** [icompare]: same length, then character by character after
    [std::tolower]. *)
Fixpoint equal_tolower (a b : string) : bool :=
  match a, b with
  | String x a', String y b' =>
      Ascii.eqb (Chars.tolower x) (Chars.tolower y) && equal_tolower a' b'
  | EmptyString, _ => true
  | String _ _, EmptyString => false
  end.

Definition icompare (a b : string) : bool :=
  if negb (Nat.eqb (String.length a) (String.length b)) then false
  else equal_tolower a b.

(** [std::find_if(set.begin(), set.end(), ...) != set.end()] *)
Definition found (set : list string) (line : string) : bool :=
  existsb (fun a => icompare a line) set.

Fixpoint choice_loop (message : list output)
    (firstStringSet secondStringSet : list string)
    (lines : list string) (out : list output) : returned Z * console :=
  match lines with
  | [] => (Eof None, {| cin := []; cout := out |})
  | line :: lines' =>
      if found firstStringSet line
      then (Break 1, {| cin := lines'; cout := out |})
      else if found secondStringSet line
      then (Break (-1), {| cin := lines'; cout := out |})
      else choice_loop message firstStringSet secondStringSet lines'
             (out ++ not_valid ++ message)
  end.

Definition getBetweenTwoStringSetOptions (message : list output)
    (firstStringSet secondStringSet : list string) (w : console)
    : returned Z * console :=
  choice_loop message firstStringSet secondStringSet (cin w) (cout w).

Local Open Scope string_scope.

Definition validEV : list string :=
  ["e"; "ev"; "electron volt"; "electronvolt"; "electron-volt";
   "electron volts"; "electronvolts"; "electron-volts"].

Definition validJoules : list string := ["j"; "joule"; "joules"].

Definition validTrues : list string := ["yes"; "y"; "true"; "1"].

Definition validFalses : list string := ["no"; "n"; "false"; "0"].

Definition energy_prompt : list output :=
  [Text "Electron-volts or joules? ['e', 'J']:"; NL].

Definition bool_prompt : list output := [Text "Yay, or nay? [y/n]:"; NL].

(** A function that compares the value of [response] with 1: [None]
    stands for the comparison of an indeterminate value. *)
Definition getEnergyType (w : console) : returned EnergyType * console :=
  let (r, w') := getBetweenTwoStringSetOptions energy_prompt validEV validJoules w in
  (map_returned (fun v => if (v =? 1)%Z then ELECTRON_VOLT else JOULES) r, w').

Definition getBool (w : console) : returned bool * console :=
  let (r, w') := getBetweenTwoStringSetOptions bool_prompt validTrues validFalses w in
  (map_returned (fun v => (v =? 1)%Z) r, w').

Local Close Scope string_scope.

(** ** Physics *)

(** The C++ type [double]: IEEE-754 binary64, every operation rounded to
    nearest, ties to even. *)
Module Double.

Definition prec : Z := 53.
Definition emax : Z := 1024.

Definition double : Type := spec_float.

(** Conversion of an integer, as in [(double)Z]. *)
Definition of_Z (n : Z) : double := binary_normalize prec emax n 0 false.

Definition mul : double -> double -> double := SFmul prec emax.
Definition div : double -> double -> double := SFdiv prec emax.
Definition sub : double -> double -> double := SFsub prec emax.

(** The decimal literal [m]e[-k], correctly rounded: both [m] and [10^k]
    are binary64 values for the two literals of the program, so one
    rounded division gives the nearest [double]. *)
Definition literal (m : Z) (k : Z) : double := div (of_Z m) (of_Z (10 ^ k)).

(** [std::pow(x, 2.0)].  The C++ library is not part of the repository;
    the call is taken to return the correctly rounded square. *)
Definition pow2 (x : double) : double := mul x x.

(** [x > 0.0] *)
Definition gt_zero (x : double) : bool := SFltb (S754_zero false) x.

End Double.

Import Double.

(** [const double RYDBERG_CONSTANT = 13.60569300984;] *)
Definition RYDBERG_CONSTANT : double := literal 1360569300984 11.

(** [const double EV_TO_JOULES = 1.6e-19;] *)
Definition EV_TO_JOULES : double := literal 16 20.

Definition calculateBohrEnergy (Z nInitial nFinal : Z) (eType : EnergyType) : double :=
  let energy :=
    mul (mul RYDBERG_CONSTANT (pow2 (of_Z Z)))
        (sub (div (of_Z 1) (pow2 (of_Z nFinal)))
             (div (of_Z 1) (pow2 (of_Z nInitial)))) in
  match eType with
  | JOULES => mul energy EV_TO_JOULES
  | ELECTRON_VOLT => energy
  end.

(** ** Main program *)

(** The arguments of one call of [calculateBohrEnergy]. *)
Record call : Type :=
  { arg_Z : Z; arg_nInitial : Z; arg_nFinal : Z; arg_eType : EnergyType }.

(** The console together with the calls of [calculateBohrEnergy] made so
    far (a ghost log, latest call last). *)
Record state : Type := { con : console; calls : list call }.

(** The value a function hands back, [None] when it is indeterminate. *)
Definition value_of {A : Type} (r : returned A) : option A :=
  match r with
  | Break v => Some v
  | Eof v => v
  end.

(** What one pass through the body of the [do ... while] loop leads to. *)
Inductive pass : Type :=
| Again (restart : bool) (s : state)  (* the condition holds; [restart] marks the [continue] *)
| Stop (s : state)                    (* [getBool] said no: [return 0] *)
| Undefined (s : state).              (* an indeterminate value was used *)

Definition ask_int (prompt : string) (w : console) : option Z * console :=
  let (r, w') := getint 1 INT_MAX (print [NL; Text prompt; NL] w) in
  (option_map to_unsigned (value_of r), w').

Definition prompt_Z : string :=
  "Please specify a value for the atomic number of the system under consideration.".
Definition prompt_nInitial : string :=
  "Please specify a value for the initial principal quantum number of the electron under consideration.".
Definition prompt_nFinal : string :=
  "Please specify a value for the final principal quantum number of the electron under consideration.".

Definition ordering_notice : list output :=
  [NL; Text "The initial principal quantum number must be greater than the final principal quantum number!"; NL;
   Text "Let's start again!"; NL].

Definition unit_question : list output :=
  [NL; Text "Do you want the results in electron-volts or joules?"; NL].

Definition continue_question : list output :=
  [NL; Text "Do you wish to continue? [y/n]:"; NL].

Definition report (Z nInitial nFinal : Z) (eType : EnergyType) (energy : double) : list output :=
  [NL; Text "For a ("; Int Z; Text ", "; Int nInitial; Text ", "; Int nFinal;
   Text ") transition the energy was calculated to be: "; NL;
   Text "    E = "; Double3 energy;
   Text (match eType with ELECTRON_VOLT => "eV" | JOULES => "J" end)%string; NL].

Definition body (s : state) : pass :=
  let log := calls s in
  let (oZ, w1) := ask_int prompt_Z (con s) in
  match oZ with
  | None => Undefined {| con := w1; calls := log |}
  | Some Z =>
  let (oI, w2) := ask_int prompt_nInitial w1 in
  match oI with
  | None => Undefined {| con := w2; calls := log |}
  | Some nInitial =>
  let (oF, w3) := ask_int prompt_nFinal w2 in
  match oF with
  | None => Undefined {| con := w3; calls := log |}
  | Some nFinal =>
  if nInitial <? nFinal
  then Again true {| con := print ordering_notice w3; calls := log |}
  else
    let (rT, w4) :=
      getEnergyType (print unit_question w3) in
    match value_of rT with
    | None => Undefined {| con := w4; calls := log |}
    | Some eType =>
    let energy := calculateBohrEnergy Z nInitial nFinal eType in
    let log' := log ++ [{| arg_Z := Z; arg_nInitial := nInitial;
                           arg_nFinal := nFinal; arg_eType := eType |}] in
    let (rB, w5) :=
      getBool
        (print (report Z nInitial nFinal eType energy ++ continue_question) w4) in
    match value_of rB with
    | None => Undefined {| con := w5; calls := log' |}
    | Some true => Again false {| con := w5; calls := log' |}
    | Some false => Stop {| con := w5; calls := log' |}
    end
    end
  end end end.

(** How far a run is followed: to its [return], when every value it
    used had been assigned ([Exit]), or to the first use of a value that
    was never assigned ([UndefinedBehaviour], with the state at that
    point).  What the program does after such a use is not described. *)
Inductive outcome : Type :=
| Exit (code : Z) (s : state)
| UndefinedBehaviour (s : state)
| OutOfFuel.

Fixpoint loop (fuel : nat) (s : state) : outcome :=
  match fuel with
  | O => OutOfFuel
  | S fuel' =>
      match body s with
      | Again _ s' => loop fuel' s'
      | Stop s' => Exit 0 s'
      | Undefined s' => UndefinedBehaviour s'
      end
  end.

Definition welcome : list output :=
  [Text "Welcome to Matt's glorious electron transition energy calculator!"; NL].

(** [main] on the given lines of standard input.  Every pass of the loop
    that does not end the run takes at least one line, so one unit of
    fuel per line, and one more, is enough (see [main_total]). *)
Definition main (lines : list string) : outcome :=
  loop (S (List.length lines))
       {| con := {| cin := lines; cout := welcome |}; calls := [] |}.

(** * Notions used by the statements *)

(** ASCII case folding of a whole string (the wording of the
    specification; the code folds character by character inside
    [icompare]). *)
Fixpoint fold_case (s : string) : string :=
  match s with
  | EmptyString => EmptyString
  | String c s' => String (Chars.tolower c) (fold_case s')
  end.

(** Membership of a line in a set of strings, up to case. *)
Definition member_folded (set : list string) (line : string) : bool :=
  existsb (fun a => String.eqb (fold_case a) (fold_case line)) set.

(** The synonyms as the specification lists them. *)
Definition is_electron_volt (line : string) : bool :=
  existsb (String.eqb (fold_case line))
    ["e"; "ev"; "electron volt"; "electronvolt"; "electron-volt";
     "electron volts"; "electronvolts"; "electron-volts"]%string.

Definition is_joule (line : string) : bool :=
  existsb (String.eqb (fold_case line)) ["j"; "joule"; "joules"]%string.

(** ** Equality up to case, in the words of the specification *)

(** The letters of the alphabet: each capital with its small letter. *)
Definition letters : list (ascii * ascii) :=
  combine (list_ascii_of_string "ABCDEFGHIJKLMNOPQRSTUVWXYZ")
          (list_ascii_of_string "abcdefghijklmnopqrstuvwxyz").

(** Two characters that are one letter, written once as a capital and
    once as a small letter. *)
Definition same_letter (c d : ascii) : bool :=
  existsb (fun p => (Ascii.eqb c (fst p) && Ascii.eqb d (snd p))
                    || (Ascii.eqb c (snd p) && Ascii.eqb d (fst p))) letters.

(** Two strings of the same length that agree character by character,
    the case of a letter apart. *)
Fixpoint equal_ignoring_case (a b : string) : bool :=
  match a, b with
  | EmptyString, EmptyString => true
  | String x a', String y b' =>
      (Ascii.eqb x y || same_letter x y) && equal_ignoring_case a' b'
  | _, _ => false
  end.

(** A line that is, the case of letters apart, one of the words. *)
Definition one_of (words : list string) (line : string) : bool :=
  existsb (fun w => equal_ignoring_case w line) words.

(** The words for the two units and the two answers. *)
Definition electron_volt_words : list string :=
  ["e"; "ev"; "electron volt"; "electronvolt"; "electron-volt";
   "electron volts"; "electronvolts"; "electron-volts"]%string.

Definition joule_words : list string := ["j"; "joule"; "joules"]%string.

Definition yes_words : list string := ["yes"; "y"; "true"; "1"]%string.

Definition no_words : list string := ["no"; "n"; "false"; "0"]%string.

(** Every character there is. *)
Definition all_chars : list ascii := map ascii_of_nat (seq 0 256).

(** The arguments [main] may pass to [calculateBohrEnergy]. *)
Definition levels_positive (c : call) : Prop :=
  1 <= arg_Z c <= INT_MAX /\
  1 <= arg_nInitial c <= INT_MAX /\
  1 <= arg_nFinal c <= INT_MAX.

Definition levels_ordered (c : call) : Prop :=
  arg_nFinal c <= arg_nInitial c.

Definition state_of (p : pass) : state :=
  match p with
  | Again _ s | Stop s | Undefined s => s
  end.

(** The calls logged by a run. *)
Definition log (o : outcome) : list call :=
  match o with
  | Exit _ s | UndefinedBehaviour s => calls s
  | OutOfFuel => []
  end.

(** ** Values of binary64 numbers *)

Module Value.
Import Double.
Local Open Scope R_scope.

(** The result of rounding, by its mantissa and exponent. *)
Definition build (sx : bool) (m e : Z) : spec_float :=
  match m with
  | Z0 => S754_zero sx
  | Zpos p => if (e <=? emax - prec)%Z then S754_finite sx p e else S754_infinity sx
  | Zneg _ => S754_nan
  end.

Definition bpow (e : Z) : R := powerRZ 2 e.

(** The value of a mantissa and an exponent. *)
Definition F2R (m e : Z) : R := IZR m * bpow e.

(** The unit of relative error of faithful rounding. *)
Definition eps : R := bpow (-52).

(** Coarser bounds for several roundings in a row: 2^-49, 2^-40 and
    2^-16. *)
Definition delta : R := / 562949953421312.
Definition kappa : R := / 1099511627776.
Definition eta : R := / 65536.

(** A positive finite number between two bounds. *)
Definition between (lo hi : R) (x : spec_float) : Prop :=
  exists m e, x = S754_finite false m e /\ (2 ^ 51 <= Zpos m)%Z /\
              (-1074 <= e)%Z /\ lo <= F2R (Zpos m) e <= hi.

(** A finite number of sign [sx] that is not zero, or the infinity of
    that sign. *)
Definition pos (sx : bool) (x : spec_float) : Prop :=
  (exists m e, x = S754_finite sx m e /\ (-1074 <= e)%Z) \/ x = S754_infinity sx.

(** Zero, or a finite number: neither NaN nor an infinity. *)
Definition is_finite (x : double) : bool :=
  match x with
  | S754_zero _ | S754_finite _ _ _ => true
  | _ => false
  end.

Definition is_nan (x : double) : bool :=
  match x with
  | S754_nan => true
  | _ => false
  end.

End Value.

(** The formula of the specification, E = R * Z^2 * (1/nFinal^2 -
    1/nInitial^2) with R = 13.60569300984, then times 1.6e-19 for joules,
    every operation being the binary64 one. *)
Definition bohrEnergy (Z nInitial nFinal : Z) (unit : EnergyType) : double :=
  let R := literal 1360569300984 11 in
  let square (x : double) := pow2 x in
  let E := mul (mul R (square (of_Z Z)))
               (sub (div (of_Z 1) (square (of_Z nFinal)))
                    (div (of_Z 1) (square (of_Z nInitial)))) in
  match unit with
  | ELECTRON_VOLT => E
  | JOULES => mul E (literal 16 20)
  end.

(** The same formula over the real numbers, with the decimal constants
    as they are written. *)
Definition bohr_real (Z nInitial nFinal : Z) : R :=
  (13.60569300984 * (IZR Z * IZR Z) *
   (/ (IZR nFinal * IZR nFinal) - / (IZR nInitial * IZR nInitial)))%R.

Definition bohr_real_in (Z nInitial nFinal : Z) (unit : EnergyType) : R :=
  match unit with
  | ELECTRON_VOLT => bohr_real Z nInitial nFinal
  | JOULES => (bohr_real Z nInitial nFinal * 1.6e-19)%R
  end.

(** ** Notions for the further properties *)

(** A string of white space only. *)
Fixpoint blank (s : string) : bool :=
  match s with
  | EmptyString => true
  | String c s' => Chars.isspace c && blank s'
  end.

(** A string of decimal digits only. *)
Fixpoint all_digits (s : string) : bool :=
  match s with
  | EmptyString => true
  | String c s' => Chars.isdigit c && all_digits s'
  end.

Definition starts_with_digit (s : string) : bool :=
  match s with
  | String c _ => Chars.isdigit c
  | EmptyString => false
  end.

(** The number a string of digits denotes. *)
Definition digits_value (s : string) : Z :=
  Stream.decimal (map Chars.digit_value (list_ascii_of_string s)).

(** The sign that may stand before the digits. *)
Inductive sign_mark : Type := Unsigned | Plus | Minus.

Definition sign_text (sg : sign_mark) : string :=
  match sg with
  | Unsigned => EmptyString
  | Plus => "+"
  | Minus => "-"
  end.

Definition signed (sg : sign_mark) (n : Z) : Z :=
  match sg with
  | Minus => - n
  | _ => n
  end.

(** What [getint] writes after a line it refuses. *)
Definition retry_notice (min max : Z) : list output :=
  not_valid ++
  [Text "Input an integer between "; Int min; Text " and "; Int max; Text ":"; NL].

(** The same notice, once for each line of a list. *)
Definition notices (notice : list output) (refused : list string) : list output :=
  List.concat (map (fun _ => notice) refused).

(** The number the last line of a list leaves in [possibleInteger]. *)
Definition last_stored (lines : list string) : option Z :=
  match rev lines with
  | [] => None
  | line :: _ => Some (Stream.stored (input_of line))
  end.

(** The answers of [getBool], as the source lists them. *)
Definition is_true_word (line : string) : bool :=
  existsb (String.eqb (fold_case line)) ["yes"; "y"; "true"; "1"]%string.

Definition is_false_word (line : string) : bool :=
  existsb (String.eqb (fold_case line)) ["no"; "n"; "false"; "0"]%string.

(** A string without the letters 'A'..'Z'. *)
Fixpoint no_capitals (s : string) : bool :=
  match s with
  | EmptyString => true
  | String c s' => negb (Chars.isupper c) && no_capitals s'
  end.

(** The energy [main] computes at a call. *)
Definition energy_of (c : call) : double :=
  calculateBohrEnergy (arg_Z c) (arg_nInitial c) (arg_nFinal c) (arg_eType c).

(** The energies written to [std::cout], in order. *)
Fixpoint printed (out : list output) : list double :=
  match out with
  | [] => []
  | Double3 x :: out' => x :: printed out'
  | _ :: out' => printed out'
  end.

(** The state a run is followed to: at its [return], or at the first use
    of a value that was never assigned. *)
Definition final (o : outcome) : option state :=
  match o with
  | Exit _ s | UndefinedBehaviour s => Some s
  | OutOfFuel => None
  end.

(** * Properties of the readers *)

Lemma to_int_id (v : Z) : INT_MIN <= v <= INT_MAX -> to_int v = v.
Proof.
  unfold INT_MIN, INT_MAX, to_int; intros H.
  rewrite Z.mod_small; lia.
Qed.

Lemma to_unsigned_id (v : Z) : 0 <= v <= INT_MAX -> to_unsigned v = v.
Proof.
  unfold INT_MAX, to_unsigned; intros H.
  rewrite Z.mod_small; lia.
Qed.

Lemma to_unsigned_range (v : Z) : 0 <= to_unsigned v < 2 ^ 32.
Proof. unfold to_unsigned; apply Z.mod_pos_bound; lia. Qed.

Lemma getint_accepts_range (min max : Z) (line : string) :
  getint_accepts min max line = true ->
  min <= Stream.stored (input_of line) <= max.
Proof.
  unfold getint_accepts.
  destruct (_ && _) eqn:E; [intros _ | discriminate].
  apply andb_true_iff in E; lia.
Qed.

(** What [getint]'s loop hands back when it is left through [break]:
    a value in range, read from a line that passed the test, after
    skipping lines that did not. *)
Lemma getint_loop_Break (min max : Z) (lines : list string) :
  forall p out v w',
    getint_loop min max lines p out = (Break v, w') ->
    min <= v <= max /\
    exists skipped line,
      lines = skipped ++ line :: cin w' /\
      Forall (fun l => getint_accepts min max l = false) skipped /\
      getint_accepts min max line = true /\
      v = Stream.stored (input_of line).
Proof.
  induction lines as [|line lines IH]; intros p out v w'; simpl.
  - discriminate.
  - destruct (getint_accepts min max line) eqn:E.
    + intros [= <- <-]; split; [now apply getint_accepts_range|].
      exists [], line; simpl; auto.
    + intros H; destruct (IH _ _ _ _ H) as (Hr & sk & l & -> & Hs & Ha & Hv).
      split; [exact Hr|].
      exists (line :: sk), l; simpl; auto.
Qed.

Lemma getint_loop_Eof (min max : Z) (lines : list string) :
  forall p out o w',
    getint_loop min max lines p out = (Eof o, w') ->
    cin w' = [] /\
    Forall (fun l => getint_accepts min max l = false) lines /\
    (o = None -> lines = [] /\ p = None).
Proof.
  induction lines as [|line lines IH]; intros p out o w'; simpl.
  - intros [= <- <-]; auto.
  - destruct (getint_accepts min max line) eqn:E; [discriminate|].
    intros H; destruct (IH _ _ _ _ H) as (Hc & Hf & Hn).
    split; [exact Hc|split; [now constructor|]].
    intros Ho; destruct (Hn Ho); discriminate.
Qed.

Lemma getint_loop_length (min max : Z) (lines : list string) :
  forall p out r w',
    getint_loop min max lines p out = (r, w') ->
    (List.length (cin w') <= List.length lines)%nat.
Proof.
  induction lines as [|line lines IH]; intros p out r w'; simpl.
  - intros [= <- <-]; simpl; lia.
  - destruct (getint_accepts min max line).
    + intros [= <- <-]; simpl; lia.
    + intros H; apply IH in H; lia.
Qed.

(** A value comes back only after at least one line was taken. *)
Lemma getint_consumes (min max : Z) (w w' : console) (r : returned Z) :
  getint min max w = (r, w') ->
  value_of r <> None ->
  (List.length (cin w') < List.length (cin w))%nat.
Proof.
  unfold getint.
  destruct (getint_loop min max (cin w) None (cout w)) as [r0 w0] eqn:E.
  intros [= <- <-] Hv.
  destruct (cin w) as [|line lines] eqn:Ec.
  - simpl in E; injection E as <- <-; now elim Hv.
  - simpl in E. destruct (getint_accepts min max line).
    + injection E as <- <-; simpl; lia.
    + apply getint_loop_length in E; simpl; lia.
Qed.

Lemma getint_empty (min max : Z) (w : console) :
  cin w = [] -> getint min max w = (Eof None, w).
Proof. destruct w as [c o]; simpl; intros ->; reflexivity. Qed.

Lemma getint_Break (min max : Z) (w w' : console) (v : Z) :
  INT_MIN <= min -> max <= INT_MAX ->
  getint min max w = (Break v, w') -> min <= v <= max.
Proof.
  unfold getint; intros Hmin Hmax.
  destruct (getint_loop min max (cin w) None (cout w)) as [r0 w0] eqn:E.
  destruct r0 as [v0|o]; simpl; [|discriminate].
  intros [= <- <-]. apply getint_loop_Break in E; destruct E as [E _].
  rewrite to_int_id; lia.
Qed.

Lemma getint_Eof (min max : Z) (w w' : console) (o : option Z) :
  getint min max w = (Eof o, w') -> cin w' = [].
Proof.
  unfold getint.
  destruct (getint_loop min max (cin w) None (cout w)) as [r0 w0] eqn:E.
  destruct r0 as [v0|o0]; simpl; [discriminate|].
  intros [= <- <-]. now apply getint_loop_Eof in E.
Qed.

(** ** Case-insensitive comparison *)

Lemma icompare_cons (x y : ascii) (a b : string) :
  icompare (String x a) (String y b) =
  Ascii.eqb (Chars.tolower x) (Chars.tolower y) && icompare a b.
Proof.
  unfold icompare; simpl.
  destruct (Nat.eqb (String.length a) (String.length b)); simpl.
  - reflexivity.
  - now rewrite andb_false_r.
Qed.

Lemma icompare_fold (a b : string) :
  icompare a b = String.eqb (fold_case a) (fold_case b).
Proof.
  revert b; induction a as [|x a IH]; intros [|y b].
  - reflexivity.
  - reflexivity.
  - reflexivity.
  - rewrite icompare_cons, IH; reflexivity.
Qed.

Lemma found_member (set : list string) (line : string) :
  found set line = member_folded set line.
Proof.
  unfold found, member_folded.
  induction set as [|a set IH]; simpl; [reflexivity|].
  now rewrite icompare_fold, IH.
Qed.

Lemma member_folded_In (set : list string) (line : string) :
  member_folded set line = true <->
  exists a, In a set /\ fold_case a = fold_case line.
Proof.
  unfold member_folded; rewrite existsb_exists.
  split; intros (a & Ha & E); exists a; split; auto.
  - now apply String.eqb_eq.
  - now apply String.eqb_eq.
Qed.

Lemma choice_loop_length (message : list output) (first second : list string)
    (lines : list string) :
  forall out r w',
    choice_loop message first second lines out = (r, w') ->
    (List.length (cin w') <= List.length lines)%nat.
Proof.
  induction lines as [|line lines IH]; intros out r w'; simpl.
  - intros [= <- <-]; simpl; lia.
  - destruct (found first line); [intros [= <- <-]; simpl; lia|].
    destruct (found second line); [intros [= <- <-]; simpl; lia|].
    intros H; apply IH in H; lia.
Qed.

(** The line that settles a choice, after the lines that were refused. *)
Lemma choice_loop_Break (message : list output) (first second : list string)
    (lines : list string) :
  forall out v w',
    choice_loop message first second lines out = (Break v, w') ->
    exists skipped line,
      lines = skipped ++ line :: cin w' /\
      Forall (fun l => member_folded first l = false /\
                       member_folded second l = false) skipped /\
      ((v = 1 /\ member_folded first line = true) \/
       (v = -1 /\ member_folded first line = false /\
        member_folded second line = true)).
Proof.
  induction lines as [|line lines IH]; intros out v w'; simpl.
  - discriminate.
  - rewrite !found_member.
    destruct (member_folded first line) eqn:E1.
    + intros [= <- <-]; exists [], line; simpl.
      split; [reflexivity|split; [constructor|left; now split]].
    + destruct (member_folded second line) eqn:E2.
      * intros [= <- <-]; exists [], line; simpl.
        split; [reflexivity|split; [constructor|right; now repeat split]].
      * intros H; destruct (IH _ _ _ H) as (sk & l & -> & Hs & Hl).
        exists (line :: sk), l; simpl.
        split; [reflexivity|split; [constructor; auto|exact Hl]].
Qed.

Lemma choice_loop_empty (message : list output) (first second : list string)
    (out : list output) :
  choice_loop message first second [] out = (Eof None, {| cin := []; cout := out |}).
Proof. reflexivity. Qed.

Lemma choice_loop_Eof (message : list output) (first second : list string)
    (lines : list string) :
  forall out o w',
    choice_loop message first second lines out = (Eof o, w') -> o = None.
Proof.
  induction lines as [|line lines IH]; intros out o w'; simpl.
  - now intros [= <- <-].
  - destruct (found first line); [discriminate|].
    destruct (found second line); [discriminate|].
    apply IH.
Qed.

Lemma found_validEV (line : string) : found validEV line = is_electron_volt line.
Proof.
  rewrite found_member; unfold member_folded, is_electron_volt, validEV.
  simpl existsb. now rewrite !(String.eqb_sym (fold_case line)).
Qed.

Lemma found_validJoules (line : string) : found validJoules line = is_joule line.
Proof.
  rewrite found_member; unfold member_folded, is_joule, validJoules.
  simpl existsb. now rewrite !(String.eqb_sym (fold_case line)).
Qed.

Lemma synonyms_disjoint (line : string) :
  is_electron_volt line && is_joule line = false.
Proof.
  unfold is_electron_volt, is_joule; simpl existsb.
  repeat match goal with
  | |- context [String.eqb (fold_case line) ?s] =>
      destruct (String.eqb_spec (fold_case line) s) as [->|_]; [reflexivity|]
  end.
  reflexivity.
Qed.

(** ** Equality up to case *)

Lemma all_chars_complete (c : ascii) : In c all_chars.
Proof.
  unfold all_chars. rewrite <- (ascii_nat_embedding c).
  apply in_map, in_seq. pose proof (nat_ascii_bounded c). lia.
Qed.

(** [std::tolower] takes two characters to the same one exactly when
    they are equal or are the two forms of one letter. *)
Lemma tolower_same_letter (x y : ascii) :
  Ascii.eqb (Chars.tolower x) (Chars.tolower y)
  = Ascii.eqb x y || same_letter x y.
Proof.
  assert (H : forallb (fun a => forallb (fun b =>
                Bool.eqb (Ascii.eqb (Chars.tolower a) (Chars.tolower b))
                         (Ascii.eqb a b || same_letter a b)) all_chars) all_chars
              = true) by (vm_compute; reflexivity).
  rewrite forallb_forall in H. specialize (H x (all_chars_complete x)).
  rewrite forallb_forall in H. specialize (H y (all_chars_complete y)).
  now apply eqb_prop in H.
Qed.

Lemma icompare_ignoring_case (a b : string) :
  icompare a b = equal_ignoring_case a b.
Proof.
  revert b; induction a as [|x a IH]; intros [|y b]; try reflexivity.
  rewrite icompare_cons, IH, tolower_same_letter. reflexivity.
Qed.

Lemma found_one_of (set : list string) (line : string) :
  found set line = one_of set line.
Proof.
  unfold found, one_of. induction set as [|a set IH]; simpl; [reflexivity|].
  now rewrite icompare_ignoring_case, IH.
Qed.

Lemma is_electron_volt_one_of (line : string) :
  is_electron_volt line = one_of electron_volt_words line.
Proof. rewrite <- found_validEV. apply found_one_of. Qed.

Lemma is_joule_one_of (line : string) :
  is_joule line = one_of joule_words line.
Proof. rewrite <- found_validJoules. apply found_one_of. Qed.

(** ** The test of a line by [getint] *)

Lemma skipws_cases (s : string) :
  Stream.skipws s = EmptyString \/
  exists c r, Stream.skipws s = String c r /\ Chars.isspace c = false.
Proof.
  induction s as [|c s IH]; simpl; [now left|].
  destruct (Chars.isspace c) eqn:E; [exact IH|].
  right; now exists c, s.
Qed.

Lemma extract_string_empty (x : Stream.extracted) :
  Stream.empty (Stream.extract_string x) = true <->
  Stream.failbit x = true \/ Stream.skipws (Stream.unread x) = EmptyString.
Proof.
  unfold Stream.extract_string.
  destruct (Stream.failbit x); [simpl; tauto|].
  destruct (skipws_cases (Stream.unread x)) as [->|(c & r & -> & Hc)]; simpl.
  - tauto.
  - rewrite Hc; simpl. split; [discriminate|intros [|]; discriminate].
Qed.

(** A failed extraction stores 0 or one of the limits of [long long]. *)
Lemma extract_failed (s : string) :
  Stream.failbit (input_of s) = true ->
  Stream.stored (input_of s) = 0 \/
  Stream.stored (input_of s) = Stream.LLONG_MIN \/
  Stream.stored (input_of s) = Stream.LLONG_MAX.
Proof.
  unfold input_of, Stream.extract_long_long.
  destruct (Stream.skipws s) as [|c s1]; [simpl; auto|].
  destruct (Stream.read_sign (String c s1)) as [neg s2].
  destruct (Stream.read_digits s2) as [ds s3].
  destruct ds as [|d ds]; simpl; [now left|].
  set (v := if neg then _ else _).
  destruct (v <? Stream.LLONG_MIN); simpl; [auto|].
  destruct (Stream.LLONG_MAX <? v); simpl; [auto|discriminate].
Qed.

(** The lines [getint] takes: the number stored is in range and either
    the extraction failed, or only white space follows the number. *)
Lemma getint_accepts_spec (min max : Z) (line : string) :
  let input := input_of line in
  getint_accepts min max line = true <->
  min <= Stream.stored input <= max /\
  (Stream.failbit input = true \/
   Stream.skipws (Stream.unread input) = EmptyString).
Proof.
  intros input; unfold getint_accepts; fold input.
  destruct ((min <=? Stream.stored input) && (Stream.stored input <=? max)) eqn:E.
  - rewrite extract_string_empty.
    apply andb_true_iff in E. split; [intros H; split; [lia|exact H]|tauto].
  - apply andb_false_iff in E. split; [discriminate|]. lia.
Qed.

(** For the ranges that leave out 0 and the limits of [long long], such
    as every range [main] uses, the three conditions of the
    specification decide. *)
Lemma getint_accepts_positive_range (min max : Z) (line : string) :
  let input := input_of line in
  0 < min -> max <= INT_MAX ->
  getint_accepts min max line = true <->
  Stream.failbit input = false /\
  min <= Stream.stored input <= max /\
  Stream.skipws (Stream.unread input) = EmptyString.
Proof.
  intros input Hmin Hmax. unfold input; rewrite getint_accepts_spec.
  fold input. split.
  - intros [Hr Hf].
    destruct (Stream.failbit input) eqn:F.
    + apply extract_failed in F; fold input in F.
      unfold Stream.LLONG_MIN, Stream.LLONG_MAX, INT_MAX in *. lia.
    + destruct Hf as [Hf|Hf]; [discriminate|auto].
  - intros (_ & Hr & Hw); auto.
Qed.

(** C3: the test of [getint] takes a line that holds no number.
    On the line "abc" the extraction fails and stores 0; with the range
    [-5, 5] the bounds check passes, the failed stream leaves [emptyTest]
    empty, and [getint] returns 0 instead of asking again. *)
Theorem getint_takes_line_without_digits :
  getint (-5) 5 {| cin := ["abc"%string]; cout := [] |}
  = (Break 0, {| cin := []; cout := [] |}).
Proof. reflexivity. Qed.

(** C8: on an exhausted input [getint] does not wait: the condition of
    its loop is false at once and the [return] statement is reached with
    [possibleInteger] never assigned. *)
Theorem getint_returns_at_end_of_input :
  forall (min max : Z) (out : list output),
    getint min max {| cin := []; cout := out |}
    = (Eof None, {| cin := []; cout := out |}).
Proof. reflexivity. Qed.

(** More generally, when no line of the input passes the test, [getint]
    returns after the last one with the number that line stored. *)
Lemma getint_returns_when_no_line_passes (min max : Z) (w : console) :
  Forall (fun l => getint_accepts min max l = false) (cin w) ->
  exists o w', getint min max w = (Eof o, w') /\ cin w' = [].
Proof.
  unfold getint. generalize (@None Z) (cout w).
  induction (cin w) as [|line lines IH]; intros p out H; simpl.
  - eexists _, _; split; reflexivity.
  - inversion H as [|? ? Hl Hr]; subst. rewrite Hl. apply IH, Hr.
Qed.


(** C7: [getEnergyType] gives ELECTRON_VOLT exactly on a line that, the
    case of letters apart, is one of the eight electron-volt synonyms,
    JOULES exactly on one that is j, joule or joules (no line is both),
    and asks again on every other line.  So "EV" and "Electron-Volts"
    give ELECTRON_VOLT, "J" and "Joules" give JOULES, and "kJ" is asked
    again. *)
Theorem getEnergyType_line :
  (forall line lines out,
      getEnergyType {| cin := line :: lines; cout := out |} =
      if one_of electron_volt_words line
      then (Break ELECTRON_VOLT, {| cin := lines; cout := out |})
      else if one_of joule_words line
      then (Break JOULES, {| cin := lines; cout := out |})
      else getEnergyType
             {| cin := lines; cout := out ++ not_valid ++ energy_prompt |}) /\
  (forall line, one_of electron_volt_words line && one_of joule_words line = false) /\
  (forall lines out,
      getEnergyType {| cin := "EV"%string :: lines; cout := out |}
      = (Break ELECTRON_VOLT, {| cin := lines; cout := out |})) /\
  (forall lines out,
      getEnergyType {| cin := "Electron-Volts"%string :: lines; cout := out |}
      = (Break ELECTRON_VOLT, {| cin := lines; cout := out |})) /\
  (forall lines out,
      getEnergyType {| cin := "J"%string :: lines; cout := out |}
      = (Break JOULES, {| cin := lines; cout := out |})) /\
  (forall lines out,
      getEnergyType {| cin := "Joules"%string :: lines; cout := out |}
      = (Break JOULES, {| cin := lines; cout := out |})) /\
  (forall lines out,
      getEnergyType {| cin := "kJ"%string :: lines; cout := out |}
      = getEnergyType
          {| cin := lines; cout := out ++ not_valid ++ energy_prompt |}).
Proof.
  split; [|split; [|repeat split; reflexivity]].
  - intros; unfold getEnergyType, getBetweenTwoStringSetOptions.
    cbn [cin cout choice_loop].
    rewrite found_validEV, found_validJoules.
    rewrite <- is_electron_volt_one_of, <- is_joule_one_of.
    destruct (is_electron_volt line); [reflexivity|].
    destruct (is_joule line); reflexivity.
  - intros line. rewrite <- is_electron_volt_one_of, <- is_joule_one_of.
    apply synonyms_disjoint.
Qed.

(** The line on which a call of [getEnergyType] returns, and the lines
    it refused before. *)
Lemma getEnergyType_Break (w w' : console) (u : EnergyType) :
  getEnergyType w = (Break u, w') ->
  exists skipped line,
    cin w = skipped ++ line :: cin w' /\
    Forall (fun l => is_electron_volt l = false /\ is_joule l = false) skipped /\
    (u = ELECTRON_VOLT <-> is_electron_volt line = true) /\
    (u = JOULES <-> is_joule line = true).
Proof.
  unfold getEnergyType, getBetweenTwoStringSetOptions.
  destruct (choice_loop _ _ _ _ _) as [r w0] eqn:E.
  destruct r as [v|o]; [|discriminate]. cbn [map_returned].
  intros [= Hu <-].
  destruct (choice_loop_Break _ _ _ _ _ _ _ E) as (sk & l & Hc & Hs & Hl).
  exists sk, l. split; [exact Hc|].
  split.
  - eapply Forall_impl; [|exact Hs]. intros a. cbv beta.
    now rewrite <- !found_member, found_validEV, found_validJoules.
  - rewrite <- !found_member, found_validEV, found_validJoules in Hl.
    pose proof (synonyms_disjoint l) as D.
    destruct Hl as [[-> H1]|(-> & H1 & H2)]; simpl in Hu; subst u;
      rewrite ?H1, ?H2 in *; simpl in D; split; split; congruence.
Qed.

(** * Properties of the interaction loop *)

Lemma ask_int_length (prompt : string) (w w' : console) (o : option Z) :
  ask_int prompt w = (o, w') ->
  (List.length (cin w') <= List.length (cin w))%nat.
Proof.
  unfold ask_int, getint; cbn [cin cout print].
  destruct (getint_loop _ _ _ _ _) as [r w0] eqn:E.
  intros [= _ <-]. now apply getint_loop_length in E.
Qed.

(** A number handed back by [getint(1)]: at least one line was taken for
    it, and unless the input ran out it lies in [1, INT_MAX], where the
    conversion to [unsigned int] changes nothing. *)
Lemma ask_int_Some (prompt : string) (w w' : console) (v : Z) :
  ask_int prompt w = (Some v, w') ->
  (List.length (cin w') < List.length (cin w))%nat /\
  0 <= v < 2 ^ 32 /\
  (cin w' <> [] -> 1 <= v <= INT_MAX).
Proof.
  unfold ask_int.
  destruct (getint 1 INT_MAX _) as [r w0] eqn:E.
  intros [= Hv <-].
  split.
  - apply getint_consumes in E; [exact E|]. now destruct (value_of r).
  - destruct r as [v0|o]; simpl in Hv.
    + injection Hv as <-. split; [apply to_unsigned_range|]. intros _.
      apply getint_Break in E; unfold INT_MIN, INT_MAX in *; try lia.
      rewrite to_unsigned_id; unfold INT_MAX; lia.
    + apply getint_Eof in E. destruct o as [v0|]; [|discriminate].
      injection Hv as <-. split; [apply to_unsigned_range|]. now intros [].
Qed.

Lemma choice_value (message : list output) (first second : list string)
    (w w' : console) (r : returned Z) :
  getBetweenTwoStringSetOptions message first second w = (r, w') ->
  value_of r <> None ->
  (exists v, r = Break v) /\
  (List.length (cin w') < List.length (cin w))%nat.
Proof.
  unfold getBetweenTwoStringSetOptions; intros E Hv.
  destruct r as [v|o].
  - split; [now exists v|].
    destruct (choice_loop_Break _ _ _ _ _ _ _ E) as (sk & l & -> & _).
    rewrite length_app; simpl; lia.
  - apply choice_loop_Eof in E; subst o. now elim Hv.
Qed.

Lemma getEnergyType_value (w w' : console) (r : returned EnergyType) (u : EnergyType) :
  getEnergyType w = (r, w') -> value_of r = Some u ->
  r = Break u /\ (List.length (cin w') < List.length (cin w))%nat.
Proof.
  unfold getEnergyType.
  destruct (getBetweenTwoStringSetOptions _ _ _ w) as [r0 w0] eqn:E.
  intros [= <- <-] Hv.
  destruct (choice_value _ _ _ _ _ _ E) as [[v ->] Hl].
  - destruct r0 as [|[|]]; simpl in *; congruence.
  - simpl in *. split; [congruence|exact Hl].
Qed.

Lemma getBool_length (w w' : console) (r : returned bool) :
  getBool w = (r, w') ->
  (List.length (cin w') <= List.length (cin w))%nat.
Proof.
  unfold getBool, getBetweenTwoStringSetOptions.
  destruct (choice_loop _ _ _ _ _) as [r0 w0] eqn:E.
  intros [= _ <-]. now apply choice_loop_length in E.
Qed.

(** One pass of the loop logs at most one call, and only with arguments
    read from lines that passed [getint]'s test and are in order. *)
Lemma body_calls (s : state) :
  calls (state_of (body s)) = calls s \/
  exists c, calls (state_of (body s)) = calls s ++ [c] /\
            levels_positive c /\ levels_ordered c.
Proof.
  unfold body.
  destruct (ask_int prompt_Z (con s)) as [[vZ|] w1] eqn:E1; [|now left].
  destruct (ask_int prompt_nInitial w1) as [[vI|] w2] eqn:E2; [|now left].
  destruct (ask_int prompt_nFinal w2) as [[vF|] w3] eqn:E3; [|now left].
  destruct (vI <? vF) eqn:Ord; [now left|].
  destruct (getEnergyType _) as [rT w4] eqn:E4.
  destruct (value_of rT) as [u|] eqn:Hu; [|now left].
  assert (Hc : calls (state_of
            (let (rB, w5) := getBool (print (report vZ vI vF u
                 (calculateBohrEnergy vZ vI vF u) ++ continue_question) w4) in
             match value_of rB with
             | Some true => Again false {| con := w5; calls := calls s ++
                 [{| arg_Z := vZ; arg_nInitial := vI; arg_nFinal := vF; arg_eType := u |}] |}
             | Some false => Stop {| con := w5; calls := calls s ++
                 [{| arg_Z := vZ; arg_nInitial := vI; arg_nFinal := vF; arg_eType := u |}] |}
             | None => Undefined {| con := w5; calls := calls s ++
                 [{| arg_Z := vZ; arg_nInitial := vI; arg_nFinal := vF; arg_eType := u |}] |}
             end)) = calls s ++
                 [{| arg_Z := vZ; arg_nInitial := vI; arg_nFinal := vF; arg_eType := u |}]).
  { destruct (getBool _) as [rB w5]. now destruct (value_of rB) as [[|]|]. }
  right; eexists; split; [exact Hc|].
  destruct (getEnergyType_value _ _ _ _ E4 Hu) as [_ L4]. cbn [print cin] in L4.
  destruct (ask_int_Some _ _ _ _ E3) as (L3 & _ & R3).
  destruct (ask_int_Some _ _ _ _ E2) as (L2 & _ & R2).
  destruct (ask_int_Some _ _ _ _ E1) as (L1 & _ & R1).
  assert (N3 : cin w3 <> []) by (intros N; rewrite N in L4; simpl in L4; lia).
  assert (N2 : cin w2 <> []) by (intros N; rewrite N in L3; simpl in L3; lia).
  assert (N1 : cin w1 <> []) by (intros N; rewrite N in L2; simpl in L2; lia).
  unfold levels_positive, levels_ordered; simpl.
  apply Z.ltb_ge in Ord. auto.
Qed.

(** A pass that leads back into the loop took at least one line. *)
Lemma body_consumes (s s' : state) (b : bool) :
  body s = Again b s' ->
  (List.length (cin (con s')) < List.length (cin (con s)))%nat.
Proof.
  unfold body.
  destruct (ask_int prompt_Z (con s)) as [[vZ|] w1] eqn:E1; [|discriminate].
  destruct (ask_int prompt_nInitial w1) as [[vI|] w2] eqn:E2; [|discriminate].
  destruct (ask_int prompt_nFinal w2) as [[vF|] w3] eqn:E3; [|discriminate].
  apply ask_int_Some in E1; destruct E1 as (L1 & _).
  apply ask_int_length in E2. apply ask_int_length in E3.
  destruct (vI <? vF).
  - intros [= _ <-]; simpl. lia.
  - destruct (getEnergyType _) as [rT w4] eqn:E4.
    destruct (value_of rT) as [u|] eqn:Hu; [|discriminate].
    apply (getEnergyType_value _ _ _ _ E4) in Hu. destruct Hu as [_ L4].
    cbn [print cin] in L4.
    destruct (getBool _) as [rB w5] eqn:E5.
    apply getBool_length in E5. cbn [print cin] in E5.
    destruct (value_of rB) as [[|]|]; try discriminate.
    intros [= _ <-]; simpl. lia.
Qed.

Lemma loop_total (fuel : nat) :
  forall s, (List.length (cin (con s)) < fuel)%nat -> loop fuel s <> OutOfFuel.
Proof.
  induction fuel as [|fuel IH]; intros s H; [lia|]. simpl.
  destruct (body s) as [b s'| |] eqn:E; try discriminate.
  apply IH. apply body_consumes in E. lia.
Qed.

(** The fuel given by [main] is never used up. *)
Lemma main_total (lines : list string) : main lines <> OutOfFuel.
Proof. apply loop_total; simpl; lia. Qed.

Lemma loop_calls (P : call -> Prop) :
  (forall s, calls (state_of (body s)) = calls s \/
             exists c, calls (state_of (body s)) = calls s ++ [c] /\ P c) ->
  forall fuel s, Forall P (calls s) -> Forall P (log (loop fuel s)).
Proof.
  intros Hbody; induction fuel as [|fuel IH]; intros s Hs; simpl; [constructor|].
  assert (H' : Forall P (calls (state_of (body s)))).
  { destruct (Hbody s) as [->|(c & -> & Hc)]; [exact Hs|].
    apply Forall_app; split; [exact Hs|now constructor]. }
  destruct (body s) as [b s'|s'|s']; simpl in *; auto.
Qed.

(** C2 (as amended): before the energy is computed the initial level is
    at least the final level.  When the three numbers collected have
    nInitial < nFinal the pass ends in the [continue]: nothing further is
    read or asked, and no call is logged; in every run, every call of
    [calculateBohrEnergy] has nFinal <= nInitial. *)
Theorem ordering_enforced :
  forall (s : state) (Z nInitial nFinal : Z) (w1 w2 w3 : console),
    ask_int prompt_Z (con s) = (Some Z, w1) ->
    ask_int prompt_nInitial w1 = (Some nInitial, w2) ->
    ask_int prompt_nFinal w2 = (Some nFinal, w3) ->
    (nInitial < nFinal ->
     body s = Again true {| con := print ordering_notice w3; calls := calls s |}) /\
    (forall lines, Forall levels_ordered (log (main lines))).
Proof.
  intros s vZ vI vF w1 w2 w3 E1 E2 E3; split.
  - intros H; unfold body; rewrite E1, E2, E3.
    apply Z.ltb_lt in H; now rewrite H.
  - intros lines; unfold main; apply loop_calls; [|constructor].
    intros s0; destruct (body_calls s0) as [H|(c & H & _ & Hc)]; [now left|].
    right; now exists c.
Qed.

Lemma ordering_enforced_witness :
  let s := {| con := {| cin := ["1"; "1"; "2"]%string; cout := [] |}; calls := [] |} in
  body s =
  Again true
    {| con := print ordering_notice
                (snd (ask_int prompt_nFinal
                   (snd (ask_int prompt_nInitial
                      (snd (ask_int prompt_Z (con s)))))));
       calls := [] |}.
Proof.
  intros s.
  refine (proj1 (ordering_enforced s 1 1 2 _ _ _ _ _ _) _);
    [reflexivity | reflexivity | reflexivity | lia].
Defined.

(** The strict ordering nInitial > nFinal does not hold before the
    computation: with the lines 1, 2, 2, e, n the energy of the
    "transition" from level 2 to level 2 is computed. *)
Lemma ordering_not_strict :
  log (main ["1"; "2"; "2"; "e"; "n"]%string) =
    [{| arg_Z := 1; arg_nInitial := 2; arg_nFinal := 2; arg_eType := ELECTRON_VOLT |}]
  /\ ~ (forall lines,
          Forall (fun c => arg_nFinal c < arg_nInitial c) (log (main lines))).
Proof.
  assert (E : log (main ["1"; "2"; "2"; "e"; "n"]%string) =
    [{| arg_Z := 1; arg_nInitial := 2; arg_nFinal := 2; arg_eType := ELECTRON_VOLT |}])
    by (vm_compute; reflexivity).
  split; [exact E|].
  intros H; specialize (H ["1"; "2"; "2"; "e"; "n"]%string).
  rewrite E in H. inversion H as [|c l Hc Hl]; subst. simpl in Hc. lia.
Qed.

(** C10: every call of [calculateBohrEnergy] made by [main] has
    Z >= 1, nInitial >= 1 and nFinal >= 1: a number that [getint(1)]
    hands back through its [break] lies in [1, INT_MAX], and the
    conversion to [unsigned int] leaves such a number as it is. *)
Theorem arguments_positive :
  (forall lines, Forall levels_positive (log (main lines))) /\
  (forall lines, main lines <> OutOfFuel) /\
  (forall w v w',
      getint 1 INT_MAX w = (Break v, w') ->
      1 <= v <= INT_MAX /\ to_unsigned v = v).
Proof.
  split; [|split; [exact main_total|]].
  - intros lines; unfold main; apply loop_calls; [|constructor].
    intros s0; destruct (body_calls s0) as [H|(c & H & Hc & _)]; [now left|].
    right; now exists c.
  - intros w v w' H. apply getint_Break in H; unfold INT_MIN, INT_MAX in *; try lia.
    split; [lia|]. apply to_unsigned_id; unfold INT_MAX; lia.
Qed.

Lemma arguments_positive_witness :
  getint 1 INT_MAX {| cin := ["26"]%string; cout := [] |}
    = (Break 26, {| cin := []; cout := [] |}) /\
  (1 <= 26 <= INT_MAX /\ to_unsigned 26 = 26).
Proof.
  split; [reflexivity|].
  apply (proj2 (proj2 arguments_positive)
           {| cin := ["26"]%string; cout := [] |} 26 {| cin := []; cout := [] |}).
  reflexivity.
Defined.

(** * Rounding in binary64 *)

Module Rounding.
Import Value.

Lemma digits2_pos_bounds (p : positive) :
  2 ^ (Zpos (digits2_pos p) - 1) <= Zpos p < 2 ^ Zpos (digits2_pos p).
Proof.
  induction p as [p IH|p IH|]; simpl digits2_pos.
  - rewrite Pos2Z.inj_succ.
    replace (Z.succ (Zpos (digits2_pos p)) - 1) with (Z.succ (Zpos (digits2_pos p) - 1)) by lia.
    rewrite !Z.pow_succ_r by lia. lia.
  - rewrite Pos2Z.inj_succ.
    replace (Z.succ (Zpos (digits2_pos p)) - 1) with (Z.succ (Zpos (digits2_pos p) - 1)) by lia.
    rewrite !Z.pow_succ_r by lia. lia.
  - simpl. lia.
Qed.

Lemma Zdigits2_nonneg (x : Z) : 0 <= Zdigits2 x.
Proof. destruct x; simpl; lia. Qed.

Lemma Zdigits2_le (x k : Z) : 0 <= k -> 0 <= x < 2 ^ k -> Zdigits2 x <= k.
Proof.
  intros Hk [H0 Hx]. destruct x as [|p|p]; simpl; try lia.
  destruct (digits2_pos_bounds p) as [L _].
  destruct (Z_le_gt_dec (Zpos (digits2_pos p)) k) as [|G]; [assumption|].
  assert (2 ^ k <= 2 ^ (Zpos (digits2_pos p) - 1)) by (apply Z.pow_le_mono_r; lia).
  lia.
Qed.

Lemma Zdigits2_ge (x k : Z) : 2 ^ (k - 1) <= x -> 0 < x -> k <= Zdigits2 x.
Proof.
  intros Hx H0. destruct x as [|p|p]; simpl; try lia.
  destruct (digits2_pos_bounds p) as [_ U].
  destruct (Z_le_gt_dec k (Zpos (digits2_pos p))) as [|G]; [assumption|].
  assert (2 ^ Zpos (digits2_pos p) <= 2 ^ (k - 1)) by (apply Z.pow_le_mono_r; lia).
  lia.
Qed.

(** One step of [shr] halves the mantissa. *)
Lemma shr_1_m (mrs : shr_record) :
  0 <= shr_m mrs -> shr_m (shr_1 mrs) = shr_m mrs / 2.
Proof.
  destruct mrs as [m r s]; simpl; intros H.
  destruct m as [|[p|p|]|p]; cbn [shr_m]; try lia.
  - reflexivity.
  - apply Z.div_unique with 1; lia.
  - apply Z.div_unique with 0; lia.
  - reflexivity.
Qed.

Lemma iter_shr_1_m (n : positive) :
  forall mrs, 0 <= shr_m mrs ->
    shr_m (iter_pos shr_1 n mrs) = shr_m mrs / 2 ^ Zpos n.
Proof.
  induction n as [n IH|n IH|]; intros mrs H; simpl iter_pos.
  - assert (H1 : 0 <= shr_m (shr_1 mrs)) by (rewrite shr_1_m by assumption; apply Z.div_pos; lia).
    assert (H2 : 0 <= shr_m (iter_pos shr_1 n (shr_1 mrs))) by (rewrite IH by assumption; apply Z.div_pos; lia).
    rewrite IH, IH, shr_1_m by assumption.
    rewrite !Z.div_div by lia. f_equal.
    rewrite Pos2Z.inj_xI, Z.pow_add_r, <- Z.pow_twice_r by lia. lia.
  - assert (H2 : 0 <= shr_m (iter_pos shr_1 n mrs)) by (rewrite IH by assumption; apply Z.div_pos; lia).
    rewrite IH, IH by assumption.
    rewrite !Z.div_div by lia. f_equal.
    rewrite Pos2Z.inj_xO, <- Z.pow_twice_r. lia.
  - now rewrite shr_1_m.
Qed.

Lemma Zdigits2_gt (x : Z) : 0 <= x -> x < 2 ^ Zdigits2 x.
Proof.
  destruct x as [|p|p]; simpl; try lia. intros _. apply digits2_pos_bounds.
Qed.

Lemma shr_record_of_loc_m (m : Z) (l : location) :
  shr_m (shr_record_of_loc m l) = m.
Proof. now destruct l as [|[]]. Qed.

Lemma shr_m_spec (mrs : shr_record) (e n : Z) :
  0 <= shr_m mrs ->
  shr_m (fst (shr mrs e n)) = shr_m mrs / 2 ^ Z.max 0 n /\
  snd (shr mrs e n) = e + Z.max 0 n.
Proof.
  intros H. destruct n as [|p|p]; simpl.
  - now rewrite Z.div_1_r, Z.add_0_r.
  - rewrite iter_shr_1_m by assumption. split; reflexivity.
  - now rewrite Z.div_1_r, Z.add_0_r.
Qed.

Lemma shr_fexp_spec (m e : Z) (l : location) :
  0 <= m ->
  let n := Z.max 0 (Z.max (Zdigits2 m + e - 53) (-1074) - e) in
  shr_m (fst (shr_fexp prec emax m e l)) = m / 2 ^ n /\
  snd (shr_fexp prec emax m e l) = e + n.
Proof.
  intros H n. unfold shr_fexp.
  change (SpecFloat.fexp prec emax (Zdigits2 m + e))
    with (Z.max (Zdigits2 m + e - 53) (-1074)).
  fold n.
  destruct (shr_m_spec (shr_record_of_loc m l) e
              (Z.max (Zdigits2 m + e - 53) (-1074) - e)) as [A B].
  - now rewrite shr_record_of_loc_m.
  - rewrite shr_record_of_loc_m in A. fold n in A, B. now split.
Qed.

Lemma round_nearest_even_cases (m : Z) (l : location) :
  round_nearest_even m l = m \/ round_nearest_even m l = m + 1.
Proof.
  destruct l as [|[]]; simpl; auto. destruct (Z.even m); auto.
Qed.

(** Faithful rounding: [binary_round_aux] drops the low bits of the
    mantissa down to the exponent [e1] the format allows, and gives the
    truncated mantissa [t] or its successor. *)
Lemma binary_round_aux_spec (sx : bool) (mx ex : Z) (lx : location) :
  0 < mx ->
  let e1 := Z.max ex (Z.max (Zdigits2 mx + ex - 53) (-1074)) in
  let t := mx / 2 ^ (e1 - ex) in
  exists m2 e2,
    binary_round_aux prec emax sx mx ex lx = build sx m2 e2 /\
    e1 <= e2 <= e1 + 1 /\
    t <= m2 * 2 ^ (e2 - e1) <= t + 1.
Proof.
  intros Hm e1 t. unfold binary_round_aux.
  destruct (shr_fexp_spec mx ex lx) as [A1 B1]; [lia|].
  destruct (shr_fexp prec emax mx ex lx) as [mrs' e'].
  cbn [fst snd] in A1, B1.
  set (n := Z.max 0 (Z.max (Zdigits2 mx + ex - 53) (-1074) - ex)) in *.
  assert (He1 : e1 = ex + n) by (unfold e1, n; lia).
  assert (Ht : shr_m mrs' = t) by (unfold t; rewrite A1; f_equal; f_equal; lia).
  rewrite Ht. clear A1.
  assert (Ht0 : 0 <= t) by (apply Z.div_pos; lia).
  set (m1 := round_nearest_even t (loc_of_shr_record mrs')).
  assert (Hm1 : m1 = t \/ m1 = t + 1) by apply round_nearest_even_cases.
  destruct (shr_fexp_spec m1 e' loc_Exact) as [A2 B2]; [lia|].
  destruct (shr_fexp prec emax m1 e' loc_Exact) as [mrs'' e''].
  cbn [fst snd] in A2, B2.
  set (n2 := Z.max 0 (Z.max (Zdigits2 m1 + e' - 53) (-1074) - e')) in *.
  exists (shr_m mrs''), e''. split; [reflexivity|].
  (* digits of the truncated mantissa *)
  assert (Hd0 := Zdigits2_nonneg mx).
  assert (Hdt : Zdigits2 t <= Z.max 0 (Zdigits2 mx - n)).
  { destruct (Z_le_gt_dec n (Zdigits2 mx)) as [Hn|Hn].
    - replace (Z.max 0 (Zdigits2 mx - n)) with (Zdigits2 mx - n) by lia.
      apply Zdigits2_le; [lia|]. split; [assumption|].
      unfold t. rewrite He1. replace (ex + n - ex) with n by lia.
      apply Z.div_lt_upper_bound; [lia|].
      rewrite <- Z.pow_add_r by lia.
      replace (n + (Zdigits2 mx - n)) with (Zdigits2 mx) by lia.
      apply Zdigits2_gt; lia.
    - assert (t = 0).
      { unfold t. rewrite He1. replace (ex + n - ex) with n by lia.
        apply Z.div_small. split; [lia|].
        apply Z.lt_le_trans with (2 ^ Zdigits2 mx); [apply Zdigits2_gt; lia|].
        apply Z.pow_le_mono_r; lia. }
      rewrite H. simpl. lia. }
  assert (Hd1 : Zdigits2 m1 <= Zdigits2 t + 1).
  { apply Zdigits2_le; [pose proof (Zdigits2_nonneg t); lia|].
    split; [lia|]. rewrite Z.pow_add_r by (pose proof (Zdigits2_nonneg t); lia).
    pose proof (Zdigits2_gt t Ht0). lia. }
  assert (Hn2 : n2 <= 1) by (unfold n2; lia).
  assert (Hn2' : m1 = t -> n2 = 0) by (intros E; unfold n2; rewrite E; lia).
  assert (Hn20 : 0 <= n2) by (unfold n2; lia).
  split; [lia|].
  rewrite A2. replace (e'' - e1) with n2 by lia.
  destruct (Z.eq_dec n2 0) as [Z0|N0].
  - rewrite Z0. simpl. rewrite Z.div_1_r. lia.
  - assert (n2 = 1) by lia. assert (m1 = t + 1) by (destruct Hm1; [elim N0; auto|assumption]).
    rewrite H, H0. change (2 ^ 1) with 2.
    pose proof (Z.div_mod (t + 1) 2 ltac:(lia)).
    pose proof (Z.mod_pos_bound (t + 1) 2 ltac:(lia)). lia.
Qed.

End Rounding.

(** * Bounds on the values computed *)

Module Binary64.
Import Value Rounding.
Local Open Scope R_scope.

Lemma bpow_pos (e : Z) : 0 < bpow e.
Proof. apply powerRZ_lt; lra. Qed.

Lemma bpow_add (a b : Z) : bpow (a + b) = bpow a * bpow b.
Proof. apply powerRZ_add; lra. Qed.

Lemma bpow_0 : bpow 0 = 1.
Proof. reflexivity. Qed.

Lemma bpow_IZR (k : Z) : (0 <= k)%Z -> bpow k = IZR (2 ^ k).
Proof.
  intros H. unfold bpow. rewrite <- (Z2Nat.id k H) at 1 2.
  rewrite <- pow_powerRZ, <- pow_IZR. reflexivity.
Qed.

Lemma bpow_le (a b : Z) : (a <= b)%Z -> bpow a <= bpow b.
Proof.
  intros H. replace b with (a + (b - a))%Z by lia.
  rewrite bpow_add, (bpow_IZR (b - a)) by lia.
  assert (1 <= IZR (2 ^ (b - a))).
  { apply IZR_le. assert (0 < 2 ^ (b - a))%Z by (apply Z.pow_pos_nonneg; lia). lia. }
  pose proof (bpow_pos a). nra.
Qed.

Lemma bpow_lt (a b : Z) : (a < b)%Z -> bpow a < bpow b.
Proof.
  intros H. replace b with (a + (b - a))%Z by lia.
  rewrite bpow_add, (bpow_IZR (b - a)) by lia.
  assert (2 <= IZR (2 ^ (b - a))).
  { apply IZR_le. replace (b - a)%Z with (Z.succ (b - a - 1)) by lia.
    rewrite Z.pow_succ_r by lia.
    assert (0 < 2 ^ (b - a - 1))%Z by (apply Z.pow_pos_nonneg; lia). lia. }
  pose proof (bpow_pos a). nra.
Qed.

Lemma bpow_lt_inv (a b : Z) : bpow a < bpow b -> (a < b)%Z.
Proof.
  intros H. destruct (Z_lt_ge_dec a b) as [|G]; [assumption|].
  assert (bpow b <= bpow a) by (apply bpow_le; lia). lra.
Qed.

Lemma bpow_le_inv (a b : Z) : bpow a <= bpow b -> (a <= b)%Z.
Proof.
  intros H. destruct (Z_le_gt_dec a b) as [|G]; [assumption|].
  assert (bpow b < bpow a) by (apply bpow_lt; lia). lra.
Qed.

Lemma F2R_digits (m e : Z) :
  (0 < m)%Z -> bpow (Zdigits2 m - 1 + e) <= F2R m e < bpow (Zdigits2 m + e).
Proof.
  intros H. unfold F2R. rewrite !bpow_add.
  destruct m as [|p|p]; try lia. simpl Zdigits2.
  destruct (digits2_pos_bounds p) as [L U].
  rewrite (bpow_IZR (Zpos (digits2_pos p) - 1)), (bpow_IZR (Zpos (digits2_pos p))) by lia.
  apply IZR_le in L. apply IZR_lt in U.
  pose proof (bpow_pos e). split.
  - apply Rmult_le_compat_r; lra.
  - apply Rmult_lt_compat_r; lra.
Qed.

(** Rounding in the range of the normal numbers: the relative error is
    at most [eps]. *)
Lemma binary_round_aux_normal (sx : bool) (mx ex : Z) (lx : location) :
  (2 ^ 52 <= mx)%Z ->
  bpow (-1021) <= F2R mx ex <= bpow 1022 ->
  exists m e,
    binary_round_aux prec emax sx mx ex lx = S754_finite sx m e /\
    (2 ^ 51 <= Zpos m)%Z /\ (-1074 <= e)%Z /\
    F2R mx ex * (1 - eps) <= F2R (Zpos m) e <= F2R mx ex * (1 + eps).
Proof.
  intros Hm [Hlo Hhi].
  assert (Hm0 : (0 < mx)%Z) by lia.
  destruct (F2R_digits mx ex Hm0) as [DL DU].
  assert (Hd53 : (53 <= Zdigits2 mx)%Z) by (apply Zdigits2_ge; simpl; lia).
  assert (Hdlo : (-1021 < Zdigits2 mx + ex)%Z) by (apply bpow_lt_inv; lra).
  assert (Hdhi : (Zdigits2 mx - 1 + ex <= 1022)%Z) by (apply bpow_le_inv; lra).
  destruct (binary_round_aux_spec sx mx ex lx Hm0) as (m2 & e2 & E & He & Ht).
  set (e1 := Z.max ex (Z.max (Zdigits2 mx + ex - 53) (-1074))) in *.
  set (t := (mx / 2 ^ (e1 - ex))%Z) in *.
  set (n := (e1 - ex)%Z) in *.
  assert (Hn : (n = Zdigits2 mx - 53)%Z) by (unfold n, e1; lia).
  assert (Hn0 : (0 <= n)%Z) by lia.
  assert (Hp : (0 < 2 ^ n)%Z) by (apply Z.pow_pos_nonneg; lia).
  assert (Hdiv : (t * 2 ^ n <= mx < (t + 1) * 2 ^ n)%Z).
  { unfold t. pose proof (Z.div_mod mx (2 ^ n) ltac:(lia)).
    pose proof (Z.mod_pos_bound mx (2 ^ n) Hp). nia. }
  assert (Ht52 : (2 ^ 52 <= t)%Z).
  { unfold t. apply Z.div_le_lower_bound; [lia|].
    rewrite <- Z.pow_add_r by lia.
    replace (n + 52)%Z with (Zdigits2 mx - 1)%Z by lia.
    destruct mx as [|p|p]; try lia. apply digits2_pos_bounds. }
  assert (Hm2 : (2 ^ 51 <= m2)%Z).
  { assert (0 < 2 ^ (e2 - e1))%Z by (apply Z.pow_pos_nonneg; lia).
    assert (H1 : (2 ^ (e2 - e1) <= 2 ^ 1)%Z) by (apply Z.pow_le_mono_r; lia).
    change (2 ^ 1)%Z with 2%Z in H1.
    change (2 ^ 52)%Z with (2 * 2 ^ 51)%Z in Ht52. nia. }
  destruct m2 as [|p|p]; try (simpl in Hm2; lia).
  unfold build in E.
  assert (L971 : (e2 <=? emax - prec)%Z = true)
    by (apply Z.leb_le; unfold emax, prec; lia).
  rewrite L971 in E.
  exists p, e2. split; [exact E|]. split; [exact Hm2|]. split; [lia|].
  (* the value *)
  assert (V : F2R (Zpos p) e2 = IZR (Zpos p * 2 ^ (e2 - e1)) * bpow e1).
  { unfold F2R. rewrite mult_IZR, <- bpow_IZR by lia.
    replace e2 with ((e2 - e1) + e1)%Z at 1 by lia. rewrite bpow_add. ring. }
  assert (X : F2R mx ex * bpow n = IZR mx * bpow e1).
  { unfold F2R. replace e1 with (ex + n)%Z by (unfold n; lia). rewrite bpow_add. ring. }
  rewrite V.
  destruct Ht as [T1 T2]. apply IZR_le in T1, T2. rewrite plus_IZR in T2.
  destruct Hdiv as [D1 D2]. apply IZR_le in D1. apply IZR_lt in D2.
  rewrite mult_IZR, <- bpow_IZR in D1, D2 by lia. rewrite plus_IZR in D2.
  apply IZR_le in Ht52. rewrite <- bpow_IZR in Ht52 by lia.
  assert (Hx : F2R mx ex = IZR mx * bpow ex) by reflexivity.
  assert (He1 : bpow e1 = bpow ex * bpow n).
  { replace e1 with (ex + n)%Z by (unfold n; lia). apply bpow_add. }
  assert (Heps : eps * bpow 52 = 1).
  { unfold eps. rewrite <- bpow_add. reflexivity. }
  pose proof (bpow_pos ex). pose proof (bpow_pos n). pose proof (bpow_pos 52).
  pose proof (bpow_pos (-52)). fold eps in H2.
  rewrite Hx, He1.
  set (T := IZR t) in *. set (M := IZR mx) in *. set (B := bpow ex) in *.
  set (N := bpow n) in *. set (P := IZR (Z.pos p * 2 ^ (e2 - e1))) in *.
  set (K := bpow 52) in *.
  (* bpow n <= M * eps *)
  assert (HN : N <= M * eps).
  { assert (K * N <= M) by nra.
    assert (eps * (K * N) <= eps * M) by (apply Rmult_le_compat_l; lra).
    replace (eps * (K * N)) with ((eps * K) * N) in H4 by ring.
    rewrite Heps in H4. lra. }
  split.
  - assert (M * (1 - eps) <= P * N) by nra.
    replace (M * B * (1 - eps)) with (B * (M * (1 - eps))) by ring.
    replace (P * (B * N)) with (B * (P * N)) by ring.
    apply Rmult_le_compat_l; lra.
  - assert (P * N <= M * (1 + eps)) by nra.
    replace (M * B * (1 + eps)) with (B * (M * (1 + eps))) by ring.
    replace (P * (B * N)) with (B * (P * N)) by ring.
    apply Rmult_le_compat_l; lra.
Qed.

Lemma binary_round_aux_positive (sx : bool) (mx ex : Z) (lx : location) :
  (0 < mx)%Z -> bpow (-1074) <= F2R mx ex ->
  pos sx (binary_round_aux prec emax sx mx ex lx).
Proof.
  intros Hm0 Hlo.
  destruct (binary_round_aux_spec sx mx ex lx Hm0) as (m2 & e2 & E & He & Ht).
  set (e1 := Z.max ex (Z.max (Zdigits2 mx + ex - 53) (-1074))) in *.
  assert (H1 : (2 ^ (e1 - ex) <= mx)%Z).
  { destruct (Z.eq_dec e1 ex) as [->|N1].
    - rewrite Z.sub_diag. simpl. lia.
    - destruct (Z.eq_dec e1 (Zdigits2 mx + ex - 53)) as [->|N2].
      + apply Z.le_trans with (2 ^ (Zdigits2 mx - 1))%Z.
        * apply Z.pow_le_mono_r; lia.
        * destruct mx as [|p|p]; try lia. apply digits2_pos_bounds.
      + assert (e1 = -1074)%Z by (unfold e1 in *; lia).
        assert (ex < -1074)%Z by (unfold e1 in *; lia).
        apply le_IZR. rewrite <- bpow_IZR by lia.
        unfold F2R in Hlo.
        assert (bpow (-1074) = bpow (e1 - ex) * bpow ex).
        { rewrite <- bpow_add. f_equal. lia. }
        pose proof (bpow_pos ex). rewrite H1 in Hlo.
        apply Rmult_le_reg_r with (bpow ex); assumption. }
  assert (H2 : (1 <= mx / 2 ^ (e1 - ex))%Z).
  { apply Z.div_le_lower_bound; [apply Z.pow_pos_nonneg; lia|lia]. }
  assert (H3 : (0 < m2)%Z).
  { assert (0 < 2 ^ (e2 - e1))%Z by (apply Z.pow_pos_nonneg; lia). nia. }
  destruct m2 as [|p|p]; try lia. rewrite E. unfold build.
  destruct (e2 <=? emax - prec)%Z.
  - left. exists p, e2. split; [reflexivity|lia].
  - right. reflexivity.
Qed.

Lemma iter_xO (d m : positive) :
  Zpos (Pos.iter xO m d) = (Zpos m * 2 ^ Zpos d)%Z.
Proof.
  induction d as [|d IH] using Pos.peano_ind.
  - simpl. lia.
  - rewrite Pos.iter_succ, Pos2Z.inj_xO, IH, Pos2Z.inj_succ, Z.pow_succ_r by lia. ring.
Qed.

(** [shl_align] keeps the value and lowers the exponent to [ex'] when
    that is below [ex]. *)
Lemma shl_align_spec (mx : positive) (ex ex' : Z) :
  let mz := fst (shl_align mx ex ex') in
  let ez := snd (shl_align mx ex ex') in
  ez = Z.min ex ex' /\ Zpos mz = (Zpos mx * 2 ^ (ex - ez))%Z.
Proof.
  unfold shl_align. destruct (ex' - ex)%Z as [|d|d] eqn:E; cbn [fst snd].
  - replace (Z.min ex ex') with ex by lia. rewrite Z.sub_diag. simpl. lia.
  - replace (Z.min ex ex') with ex by lia. rewrite Z.sub_diag. simpl. lia.
  - replace (Z.min ex ex') with ex' by lia. split; [reflexivity|].
    rewrite iter_xO. f_equal. f_equal. lia.
Qed.

Lemma shl_align_F2R (mx : positive) (ex ex' : Z) :
  F2R (Zpos (fst (shl_align mx ex ex'))) (snd (shl_align mx ex ex')) = F2R (Zpos mx) ex.
Proof.
  destruct (shl_align_spec mx ex ex') as [E M]. cbv zeta in E, M.
  unfold F2R. rewrite M, mult_IZR, <- bpow_IZR by lia.
  rewrite Rmult_assoc, <- bpow_add. f_equal. f_equal. lia.
Qed.

Lemma binary_round_positive (sx : bool) (m : positive) (e : Z) :
  (-1074 <= e)%Z -> pos sx (binary_round prec emax sx m e).
Proof.
  intros He. unfold binary_round.
  pose proof (shl_align_F2R m e (SpecFloat.fexp prec emax (Zpos (digits2_pos m) + e))) as V.
  destruct (shl_align_spec m e (SpecFloat.fexp prec emax (Zpos (digits2_pos m) + e))) as [E _].
  cbv zeta in E.
  change (SpecFloat.fexp prec emax (Zpos (digits2_pos m) + e))
    with (Z.max (Zpos (digits2_pos m) + e - 53) (-1074)) in *.
  destruct (shl_align m e _) as [mz ez]. cbn [fst snd] in *.
  apply binary_round_aux_positive; [lia|].
  apply Rle_trans with (bpow ez); [apply bpow_le; lia|].
  unfold F2R. pose proof (bpow_pos ez).
  assert (1 <= IZR (Zpos mz)) by (apply IZR_le; lia). nra.
Qed.

(** [binary_round] in the range of the normal numbers. *)
Lemma binary_round_normal (sx : bool) (m : positive) (e : Z) :
  bpow (-1021) <= F2R (Zpos m) e <= bpow 1022 ->
  exists m' e',
    binary_round prec emax sx m e = S754_finite sx m' e' /\
    (2 ^ 51 <= Zpos m')%Z /\ (-1074 <= e')%Z /\
    F2R (Zpos m) e * (1 - eps) <= F2R (Zpos m') e' <= F2R (Zpos m) e * (1 + eps).
Proof.
  intros [Hlo Hhi]. unfold binary_round.
  pose proof (shl_align_F2R m e (SpecFloat.fexp prec emax (Zpos (digits2_pos m) + e))) as V.
  destruct (shl_align_spec m e (SpecFloat.fexp prec emax (Zpos (digits2_pos m) + e))) as [E M].
  cbv zeta in E, M.
  change (SpecFloat.fexp prec emax (Zpos (digits2_pos m) + e))
    with (Z.max (Zpos (digits2_pos m) + e - 53) (-1074)) in *.
  destruct (shl_align m e _) as [mz ez]. cbn [fst snd] in *.
  rewrite <- V. apply binary_round_aux_normal; [|rewrite V; split; assumption].
  destruct (F2R_digits (Zpos m) e ltac:(lia)) as [DL DU]. simpl Zdigits2 in DL, DU.
  assert (Hdlo : (-1021 < Zpos (digits2_pos m) + e)%Z) by (apply bpow_lt_inv; lra).
  rewrite M. destruct (digits2_pos_bounds m) as [L _].
  assert (0 < 2 ^ (e - ez))%Z by (apply Z.pow_pos_nonneg; lia).
  destruct (Z_le_gt_dec 53 (Zpos (digits2_pos m))) as [G|G].
  - assert (2 ^ 52 <= 2 ^ (Zpos (digits2_pos m) - 1))%Z by (apply Z.pow_le_mono_r; lia).
    nia.
  - replace (e - ez)%Z with (53 - Zpos (digits2_pos m))%Z by lia.
    apply Z.le_trans with (2 ^ (Zpos (digits2_pos m) - 1) * 2 ^ (53 - Zpos (digits2_pos m)))%Z.
    + rewrite <- Z.pow_add_r by lia. apply Z.pow_le_mono_r; lia.
    + apply Z.mul_le_mono_nonneg_r; [lia|assumption].
Qed.

Lemma eps_bounds : 0 < eps < / 1000.
Proof.
  unfold eps, bpow. simpl. split.
  - apply Rinv_0_lt_compat. lra.
  - apply Rinv_lt_contravar; lra.
Qed.

(** Multiplication of two positive numbers, the product staying in the
    normal range. *)
Lemma mul_between (lo1 hi1 lo2 hi2 : R) (x y : double) :
  between lo1 hi1 x -> between lo2 hi2 y ->
  0 <= lo1 -> 0 <= lo2 ->
  bpow (-1021) <= lo1 * lo2 -> hi1 * hi2 <= bpow 1022 ->
  between (lo1 * lo2 * (1 - eps)) (hi1 * hi2 * (1 + eps)) (mul x y).
Proof.
  intros (mx & ex & -> & Mx & Ex & Lx & Ux) (my & ey & -> & My & Ey & Ly & Uy) P1 P2 Hlo Hhi.
  unfold mul. cbn [SFmul xorb].
  assert (V : F2R (Zpos (mx * my)) (ex + ey) = F2R (Zpos mx) ex * F2R (Zpos my) ey).
  { unfold F2R. rewrite Pos2Z.inj_mul, mult_IZR, bpow_add. ring. }
  assert (B : lo1 * lo2 <= F2R (Zpos (mx * my)) (ex + ey) <= hi1 * hi2).
  { rewrite V. split.
    - apply Rmult_le_compat; lra.
    - apply Rmult_le_compat; lra. }
  destruct (binary_round_aux_normal false (Zpos (mx * my)) (ex + ey) loc_Exact)
    as (m & e & E & Hm & He & L & U).
  - rewrite Pos2Z.inj_mul. change (2 ^ 52)%Z with (2 ^ 51 * 2)%Z.
    apply Z.mul_le_mono_nonneg; lia.
  - lra.
  - exists m, e. split; [exact E|]. split; [exact Hm|]. split; [exact He|].
    pose proof eps_bounds. split.
    + apply Rle_trans with (F2R (Zpos (mx * my)) (ex + ey) * (1 - eps)); [|exact L].
      apply Rmult_le_compat_r; lra.
    + apply Rle_trans with (F2R (Zpos (mx * my)) (ex + ey) * (1 + eps)); [exact U|].
      apply Rmult_le_compat_r; lra.
Qed.

(** Conversion of a positive integer. *)
Lemma of_Z_between (n : Z) :
  (1 <= n < 2 ^ 64)%Z ->
  between (IZR n * (1 - eps)) (IZR n * (1 + eps)) (of_Z n).
Proof.
  intros [H1 H2]. unfold of_Z, binary_normalize.
  destruct n as [|p|p]; try lia.
  assert (V : F2R (Zpos p) 0 = IZR (Zpos p)) by (unfold F2R; rewrite bpow_0; ring).
  destruct (binary_round_normal false p 0) as (m & e & E & Hm & He & B).
  - rewrite V. split.
    + apply Rle_trans with 1; [|apply IZR_le; lia].
      rewrite <- bpow_0. apply bpow_le. lia.
    + apply Rle_trans with (bpow 64); [|apply bpow_le; lia].
      rewrite bpow_IZR by lia. apply IZR_le. lia.
  - exists m, e. rewrite V in B. auto.
Qed.

Lemma div_spec (mx my : positive) (ex ey : Z) (Q : R) :
  Q * F2R (Zpos my) ey = F2R (Zpos mx) ex ->
  bpow (-1020) <= Q <= bpow 1021 ->
  between (Q * (1 - eps) * (1 - eps)) (Q * (1 + eps))
    (div (S754_finite false mx ex) (S754_finite false my ey)).
Proof.
  intros HQ [Qlo Qhi].
  unfold div, SFdiv. cbn [xorb]. unfold SFdiv_core_binary.
  set (d1 := Zdigits2 (Zpos mx)). set (d2 := Zdigits2 (Zpos my)).
  change (SpecFloat.fexp prec emax (d1 + ex - (d2 + ey)))
    with (Z.max (d1 + ex - (d2 + ey) - 53) (-1074)).
  set (e' := Z.min (Z.max (d1 + ex - (d2 + ey) - 53) (-1074)) (ex - ey)).
  set (s := (ex - ey - e')%Z).
  set (m' := match s with Z.pos _ => Z.shiftl (Zpos mx) s | 0%Z => Zpos mx | Z.neg _ => 0%Z end).
  destruct (F2R_digits (Zpos mx) ex ltac:(lia)) as [L1 U1].
  destruct (F2R_digits (Zpos my) ey ltac:(lia)) as [L2 U2].
  fold d1 in L1, U1. fold d2 in L2, U2.
  pose proof (bpow_pos (-1020)) as P1020.
  assert (Q0 : 0 < Q) by lra.
  (* the exponent of the quotient *)
  assert (HE : (-1021 < d1 + ex - (d2 + ey))%Z).
  { apply bpow_lt_inv.
    assert (A : Q * bpow (d2 - 1 + ey) < bpow (d1 + ex)).
    { apply Rle_lt_trans with (Q * F2R (Zpos my) ey); [|lra].
      apply Rmult_le_compat_l; lra. }
    replace (d1 + ex)%Z with ((d1 + ex - (d2 + ey) + 1) + (d2 - 1 + ey))%Z in A by lia.
    rewrite (bpow_add (d1 + ex - (d2 + ey) + 1) (d2 - 1 + ey)) in A.
    pose proof (bpow_pos (d2 - 1 + ey)).
    assert (A' : Q < bpow (d1 + ex - (d2 + ey) + 1))
      by (apply Rmult_lt_reg_r with (bpow (d2 - 1 + ey)); assumption).
    assert (A'' : bpow (-1020) < bpow (d1 + ex - (d2 + ey) + 1)) by lra.
    apply bpow_lt_inv in A''. apply bpow_lt. lia. }
  assert (Hs0 : (0 <= s)%Z) by (unfold s, e'; lia).
  assert (Hs : (53 - d1 + d2 <= s)%Z) by (unfold s, e'; lia).
  assert (Hm' : m' = (Zpos mx * 2 ^ s)%Z).
  { unfold m'. destruct s as [|p|p] eqn:Es.
    - rewrite Z.pow_0_r, Z.mul_1_r. reflexivity.
    - rewrite Z.shiftl_mul_pow2 by lia. reflexivity.
    - lia. }
  clearbody m'.
  pose proof (Z_div_mod m' (Zpos my) ltac:(lia)) as DM.
  destruct (Z.div_eucl m' (Z.pos my)) as [q r]. destruct DM as [DM Hr].
  assert (Hd1 : (0 < d1)%Z) by (unfold d1; simpl; lia).
  assert (Hd2 : (0 < d2)%Z) by (unfold d2; simpl; lia).
  assert (Hq52 : (2 ^ 52 <= q)%Z).
  { assert (2 ^ 52 * Zpos my <= m')%Z.
    { rewrite Hm'.
      destruct (digits2_pos_bounds mx) as [B1 _]. destruct (digits2_pos_bounds my) as [_ B2].
      change (Zpos (digits2_pos mx)) with d1 in B1. change (Zpos (digits2_pos my)) with d2 in B2.
      assert (2 ^ (52 + d2) <= 2 ^ (d1 - 1 + s))%Z by (apply Z.pow_le_mono_r; lia).
      rewrite !Z.pow_add_r in H by lia.
      assert (0 < 2 ^ s)%Z by (apply Z.pow_pos_nonneg; lia).
      assert (0 < 2 ^ 52)%Z by lia. nia. }
    assert (2 ^ 52 * Zpos my < (q + 1) * Zpos my)%Z by lia.
    assert (2 ^ 52 < q + 1)%Z by nia. lia. }
  (* the quotient between two neighbours *)
  assert (HX : F2R q e' * F2R (Zpos my) ey <= F2R (Zpos mx) ex
               < (F2R q e' + bpow e') * F2R (Zpos my) ey).
  { assert (V : F2R (Zpos mx) ex = IZR m' * bpow e' * bpow ey).
    { rewrite Hm', mult_IZR, <- bpow_IZR by lia. unfold F2R.
      replace ex with (s + e' + ey)%Z at 1 by (unfold s; lia).
      rewrite !bpow_add. ring. }
    rewrite V. unfold F2R.
    assert (IZR q * IZR (Zpos my) <= IZR m' < (IZR q + 1) * IZR (Zpos my)).
    { rewrite <- plus_IZR, <- !mult_IZR. split; [apply IZR_le|apply IZR_lt]; lia. }
    pose proof (bpow_pos e'). pose proof (bpow_pos ey).
    assert (0 < bpow e' * bpow ey) by nra.
    split.
    - replace (IZR q * bpow e' * (IZR (Z.pos my) * bpow ey))
        with ((IZR q * IZR (Zpos my)) * (bpow e' * bpow ey)) by ring.
      replace (IZR m' * bpow e' * bpow ey) with (IZR m' * (bpow e' * bpow ey)) by ring.
      apply Rmult_le_compat_r; lra.
    - replace ((IZR q * bpow e' + bpow e') * (IZR (Z.pos my) * bpow ey))
        with (((IZR q + 1) * IZR (Zpos my)) * (bpow e' * bpow ey)) by ring.
      replace (IZR m' * bpow e' * bpow ey) with (IZR m' * (bpow e' * bpow ey)) by ring.
      apply Rmult_lt_compat_r; lra. }
  rewrite <- HQ in HX.
  assert (Y0 : 0 < F2R (Zpos my) ey).
  { unfold F2R. pose proof (bpow_pos ey). assert (1 <= IZR (Zpos my)) by (apply IZR_le; lia). nra. }
  assert (HXQ : F2R q e' <= Q < F2R q e' + bpow e').
  { destruct HX as [A B]. split.
    - apply Rmult_le_reg_r with (F2R (Zpos my) ey); assumption.
    - apply Rmult_lt_reg_r with (F2R (Zpos my) ey); assumption. }
  assert (Hb : bpow e' <= F2R q e' * eps).
  { unfold F2R, eps. apply IZR_le in Hq52. rewrite <- bpow_IZR in Hq52 by lia.
    pose proof (bpow_pos e'). pose proof (bpow_pos (-52)).
    assert (bpow 52 * bpow (-52) = 1) by (rewrite <- bpow_add; reflexivity).
    assert (1 <= IZR q * bpow (-52)) by nra. nra. }
  pose proof eps_bounds as He.
  assert (HXlo : Q * (1 - eps) <= F2R q e').
  { assert (Q <= F2R q e' * (1 + eps)) by lra.
    assert (0 <= F2R q e') by (unfold F2R; pose proof (bpow_pos e'); assert (0 <= IZR q) by (apply IZR_le; lia); nra).
    nra. }
  destruct (binary_round_aux_normal false q e' (new_location (Zpos my) r)) as (m & e & E & Hm & Hee & L & U).
  - exact Hq52.
  - split; [|apply Rle_trans with Q; [lra|apply Rle_trans with (bpow 1021); [lra|apply bpow_le; lia]]].
    apply Rle_trans with (Q * (1 - eps)); [|lra].
    assert (bpow (-1020) = 2 * bpow (-1021)).
    { change (-1020)%Z with (1 + -1021)%Z. rewrite bpow_add.
      replace (bpow 1) with 2 by (unfold bpow; simpl; ring). reflexivity. }
    pose proof (bpow_pos (-1021)). nra.
  - exists m, e. split; [exact E|]. split; [exact Hm|]. split; [exact Hee|].
    split.
    + apply Rle_trans with (F2R q e' * (1 - eps)); [|exact L].
      apply Rmult_le_compat_r; lra.
    + apply Rle_trans with (F2R q e' * (1 + eps)); [exact U|].
      apply Rmult_le_compat_r; lra.
Qed.

Lemma sub_diag (s : bool) (m : positive) (e : Z) :
  sub (S754_finite s m e) (S754_finite s m e) = S754_zero false.
Proof. unfold sub, SFsub. now rewrite Z.sub_diag. Qed.

Lemma sub_positive (ma mb : positive) (ea eb : Z) :
  (-1074 <= ea)%Z -> (-1074 <= eb)%Z ->
  F2R (Zpos mb) eb < F2R (Zpos ma) ea ->
  pos false (sub (S754_finite false ma ea) (S754_finite false mb eb)).
Proof.
  intros Ha Hb H. unfold sub, SFsub. cbn [cond_Zopp].
  set (ez := Z.min ea eb).
  destruct (shl_align_spec ma ea ez) as [E1 M1].
  destruct (shl_align_spec mb eb ez) as [E2 M2].
  cbv zeta in E1, M1, E2, M2.
  replace (Z.min ea ez) with ez in E1 by (unfold ez; lia).
  replace (Z.min eb ez) with ez in E2 by (unfold ez; lia).
  rewrite E1 in M1. rewrite E2 in M2. rewrite M1, M2.
  set (D := (Zpos ma * 2 ^ (ea - ez) - Zpos mb * 2 ^ (eb - ez))%Z).
  assert (HD : IZR D * bpow ez = F2R (Zpos ma) ea - F2R (Zpos mb) eb).
  { unfold D, F2R. rewrite minus_IZR, !mult_IZR, <- !bpow_IZR by (unfold ez; lia).
    replace ea with ((ea - ez) + ez)%Z at 2 by lia.
    replace eb with ((eb - ez) + ez)%Z at 2 by lia.
    rewrite !bpow_add. ring. }
  assert (D0 : (0 < D)%Z).
  { apply lt_IZR. pose proof (bpow_pos ez).
    apply Rmult_lt_reg_r with (bpow ez); [assumption|]. rewrite HD. lra. }
  destruct D as [|p|p]; try lia.
  unfold binary_normalize. apply binary_round_positive. unfold ez; lia.
Qed.

Lemma gt_zero_pos (x : double) : pos false x -> gt_zero x = true.
Proof. intros [(m & e & -> & _)| ->]; reflexivity. Qed.

Lemma between_pos (lo hi : R) (x : double) : between lo hi x -> pos false x.
Proof. intros (m & e & -> & _ & He & _). left. now exists m, e. Qed.

Lemma between_weaken (lo hi lo' hi' : R) (x : double) :
  between lo hi x -> lo' <= lo -> hi <= hi' -> between lo' hi' x.
Proof.
  intros (m & e & -> & Hm & He & L & U) H1 H2.
  exists m, e. repeat split; auto; lra.
Qed.

(** The product of a number that is at least 1 and a positive number. *)
Lemma mul_positive (lo hi : R) (x y : double) :
  between lo hi x -> 1 <= lo -> pos false y -> pos false (mul x y).
Proof.
  intros (mx & ex & -> & _ & _ & L & _) H1 [(my & ey & -> & Hy)| ->].
  - unfold mul. cbn [SFmul xorb].
    apply binary_round_aux_positive; [lia|].
    assert (V : F2R (Zpos (mx * my)) (ex + ey) = F2R (Zpos mx) ex * F2R (Zpos my) ey).
    { unfold F2R. rewrite Pos2Z.inj_mul, mult_IZR, bpow_add. ring. }
    rewrite V.
    assert (bpow (-1074) <= F2R (Zpos my) ey).
    { apply Rle_trans with (bpow ey); [apply bpow_le; lia|].
      unfold F2R. pose proof (bpow_pos ey).
      assert (1 <= IZR (Zpos my)) by (apply IZR_le; lia). nra. }
    pose proof (bpow_pos (-1074)). nra.
  - right. reflexivity.
Qed.

Lemma eps_value : eps = / 4503599627370496.
Proof. unfold eps, bpow. simpl. f_equal. lra. Qed.

Lemma tiny (k : Z) : (k <= -1)%Z -> bpow k <= / 2.
Proof.
  intros H. apply Rle_trans with (bpow (-1)); [apply bpow_le; lia|].
  unfold bpow. simpl. lra.
Qed.

Lemma huge (k : Z) : (70 <= k)%Z -> IZR (2 ^ 70) <= bpow k.
Proof. intros H. rewrite <- bpow_IZR by lia. apply bpow_le. lia. Qed.

Lemma IZR_uint (n : Z) : (1 <= n < 2 ^ 32)%Z -> 1 <= IZR n <= 4294967295.
Proof. intros [A B]. split; apply IZR_le; lia. Qed.

(** The square of a positive [unsigned int].  This bound, and the value
    +0 of [pow2 (of_Z 0)], are all that the results below use of
    [pow2]: they hold as well for a [std::pow] that is off by a unit in
    the last place. *)
Lemma pow2_of_Z_tight (n : Z) :
  (1 <= n < 2 ^ 32)%Z ->
  between (IZR n * IZR n * (1 - 4 * eps)) (IZR n * IZR n * (1 + 4 * eps)) (pow2 (of_Z n)).
Proof.
  intros Hn. pose proof (IZR_uint n Hn) as [N1 N2].
  assert (B : between (IZR n * (1 - eps)) (IZR n * (1 + eps)) (of_Z n))
    by (apply of_Z_between; lia).
  pose proof eps_value as Ev.
  assert (L0 : 0 <= IZR n * (1 - eps)) by (rewrite Ev; nra).
  assert (S1 : 1 <= IZR n * IZR n) by nra.
  assert (S2 : IZR n * IZR n <= 4294967295 * 4294967295) by nra.
  unfold pow2.
  apply between_weaken with
    (lo := IZR n * (1 - eps) * (IZR n * (1 - eps)) * (1 - eps))
    (hi := IZR n * (1 + eps) * (IZR n * (1 + eps)) * (1 + eps)).
  - apply mul_between; try assumption.
    + apply Rle_trans with (/ 2); [apply tiny; lia|].
      replace (IZR n * (1 - eps) * (IZR n * (1 - eps)))
        with (IZR n * IZR n * ((1 - eps) * (1 - eps))) by ring.
      rewrite Ev. nra.
    + apply Rle_trans with (IZR (2 ^ 70)); [|apply huge; lia].
      replace (IZR n * (1 + eps) * (IZR n * (1 + eps)))
        with (IZR n * IZR n * ((1 + eps) * (1 + eps))) by ring.
      rewrite Ev. simpl. nra.
  - replace (IZR n * (1 - eps) * (IZR n * (1 - eps)) * (1 - eps))
      with (IZR n * IZR n * ((1 - eps) * (1 - eps) * (1 - eps))) by ring.
    apply Rmult_le_compat_l; [lra|]. rewrite Ev. lra.
  - replace (IZR n * (1 + eps) * (IZR n * (1 + eps)) * (1 + eps))
      with (IZR n * IZR n * ((1 + eps) * (1 + eps) * (1 + eps))) by ring.
    apply Rmult_le_compat_l; [lra|]. rewrite Ev. lra.
Qed.

Lemma pow2_of_Z_between (n : Z) :
  (1 <= n < 2 ^ 32)%Z ->
  between (IZR n * IZR n * (1 - kappa)) (IZR n * IZR n * (1 + kappa)) (pow2 (of_Z n)).
Proof.
  intros Hn. pose proof (IZR_uint n Hn) as [N1 N2].
  assert (S1 : 1 <= IZR n * IZR n) by nra.
  eapply between_weaken; [apply pow2_of_Z_tight, Hn| |];
    (apply Rmult_le_compat_l; [lra|rewrite eps_value; unfold kappa; lra]).
Qed.

Lemma one_value : of_Z 1 = S754_finite false 4503599627370496 (-52).
Proof. reflexivity. Qed.

Lemma F2R_one : F2R 4503599627370496 (-52) = 1.
Proof. unfold F2R, bpow. simpl. lra. Qed.

(** The reciprocal of a number between 1/2 and 2^65. *)
Lemma reciprocal_between (p : positive) (e : Z) :
  / 2 <= F2R (Zpos p) e <= 36893488147419103232 ->
  between (/ F2R (Zpos p) e * (1 - eps) * (1 - eps)) (/ F2R (Zpos p) e * (1 + eps))
    (div (of_Z 1) (S754_finite false p e)).
Proof.
  intros [L U]. rewrite one_value. apply div_spec.
  - rewrite F2R_one. field. lra.
  - split.
    + apply Rle_trans with (bpow (-65)); [apply bpow_le; lia|].
      replace (bpow (-65)) with (/ 36893488147419103232)
        by (unfold bpow; simpl; f_equal; lra).
      apply Rinv_le_contravar; lra.
    + apply Rle_trans with 2.
      * rewrite <- (Rinv_inv 2). apply Rinv_le_contravar; lra.
      * apply Rle_trans with (bpow 1); [unfold bpow; simpl; lra|apply bpow_le; lia].
Qed.

Lemma RYDBERG_CONSTANT_value :
  RYDBERG_CONSTANT = S754_finite false 7659324246154098 (-49).
Proof. vm_compute. reflexivity. Qed.

Lemma RYDBERG_CONSTANT_between : between 13 14 RYDBERG_CONSTANT.
Proof.
  rewrite RYDBERG_CONSTANT_value. exists 7659324246154098%positive, (-49)%Z.
  split; [reflexivity|]. split; [simpl; lia|]. split; [lia|].
  unfold F2R, bpow. simpl. lra.
Qed.

(** [RYDBERG_CONSTANT * pow(Z, 2)] for a positive Z. *)
Lemma scale_between (Z : Z) :
  (1 <= Z < 2 ^ 32)%Z ->
  between 1 (IZR (2 ^ 70)) (mul RYDBERG_CONSTANT (pow2 (of_Z Z))).
Proof.
  intros HZ. pose proof (IZR_uint Z HZ) as [N1 N2].
  assert (S1 : 1 <= IZR Z * IZR Z) by nra.
  assert (S2 : IZR Z * IZR Z <= 4294967295 * 4294967295) by nra.
  pose proof eps_value as Ev.
  eapply between_weaken.
  - apply mul_between.
    + apply RYDBERG_CONSTANT_between.
    + apply pow2_of_Z_between, HZ.
    + lra.
    + unfold kappa; nra.
    + apply Rle_trans with (/ 2); [apply tiny; lia|]. unfold kappa. nra.
    + apply Rle_trans with (IZR (2 ^ 70)); [|apply huge; lia].
      unfold kappa. simpl. nra.
  - rewrite Ev. unfold kappa. nra.
  - rewrite Ev. unfold kappa. simpl. nra.
Qed.

(** [1.0 / pow(nFinal, 2) - 1.0 / pow(nInitial, 2)] is positive when
    nInitial > nFinal. *)
Lemma difference_positive (nInitial nFinal : Z) :
  (1 <= nFinal)%Z -> (nFinal < nInitial)%Z -> (nInitial < 2 ^ 32)%Z ->
  pos false (sub (div (of_Z 1) (pow2 (of_Z nFinal)))
                 (div (of_Z 1) (pow2 (of_Z nInitial)))).
Proof.
  intros H1 H2 H3.
  destruct (pow2_of_Z_between nFinal) as (pf & ef & Ef & _ & _ & Lf & Uf); [lia|].
  destruct (pow2_of_Z_between nInitial) as (pi & ei & Ei & _ & _ & Li & Ui); [lia|].
  rewrite Ef, Ei.
  pose proof (IZR_uint nFinal ltac:(lia)) as [F1 F2].
  pose proof (IZR_uint nInitial ltac:(lia)) as [I1 I2].
  assert (FI : IZR nFinal + 1 <= IZR nInitial).
  { rewrite <- plus_IZR. apply IZR_le. lia. }
  set (Pf := F2R (Zpos pf) ef) in *. set (Pi := F2R (Zpos pi) ei) in *.
  set (f := IZR nFinal) in *. set (i := IZR nInitial) in *.
  assert (Sf1 : 1 <= f * f) by nra.
  assert (Sf2 : f * f <= 4294967295 * 4294967295) by nra.
  assert (Si1 : 1 <= i * i) by nra.
  assert (Si2 : i * i <= 4294967295 * 4294967295) by nra.
  assert (Bf : / 2 <= Pf <= 36893488147419103232) by (unfold kappa in *; split; nra).
  assert (Bi : / 2 <= Pi <= 36893488147419103232) by (unfold kappa in *; split; nra).
  destruct (reciprocal_between pf ef Bf) as (ma & ea & -> & _ & Ea & La & _).
  destruct (reciprocal_between pi ei Bi) as (mb & eb & -> & _ & Eb & _ & Ub).
  fold Pf in La. fold Pi in Ub.
  apply sub_positive; [assumption|assumption|].
  apply Rle_lt_trans with (/ Pi * (1 + eps)); [exact Ub|].
  apply Rlt_le_trans with (/ Pf * (1 - eps) * (1 - eps)); [|exact La].
  (* clear the denominators *)
  assert (Pf0 : 0 < Pf) by lra. assert (Pi0 : 0 < Pi) by lra.
  apply Rmult_lt_reg_r with (Pi * Pf); [nra|].
  replace (/ Pi * (1 + eps) * (Pi * Pf)) with (Pf * (1 + eps)) by (field; lra).
  replace (/ Pf * (1 - eps) * (1 - eps) * (Pi * Pf)) with (Pi * ((1 - eps) * (1 - eps)))
    by (field; lra).
  (* the squares are far enough apart *)
  pose proof eps_value as Ev.
  assert (K1 : (1 + kappa) * (1 + eps) <= (1 + kappa) * (1 + kappa))
    by (rewrite Ev; unfold kappa; lra).
  assert (K2 : (1 - kappa) * (1 - kappa) <= (1 - eps) * (1 - eps))
    by (rewrite Ev; unfold kappa; lra).
  assert (K3 : 0 <= f * (1 + kappa) < i * (1 - kappa)) by (unfold kappa; lra).
  assert (K4 : f * (1 + kappa) * (f * (1 + kappa)) < i * (1 - kappa) * (i * (1 - kappa))).
  { apply Rmult_le_0_lt_compat; lra. }
  assert (E0 : 0 <= eps <= kappa) by (rewrite Ev; unfold kappa; lra).
  assert (Kp : 0 < kappa < / 2) by (unfold kappa; lra).
  apply Rle_lt_trans with (f * f * ((1 + kappa) * (1 + kappa))).
  - apply Rle_trans with (f * f * (1 + kappa) * (1 + eps)).
    + apply Rmult_le_compat_r; lra.
    + replace (f * f * ((1 + kappa) * (1 + kappa)))
        with (f * f * (1 + kappa) * (1 + kappa)) by ring.
      apply Rmult_le_compat_l; [|lra].
      apply Rmult_le_pos; lra.
  - apply Rlt_le_trans with (i * i * ((1 - kappa) * (1 - kappa))); [lra|].
    apply Rle_trans with (i * i * (1 - kappa) * ((1 - eps) * (1 - eps))).
    + replace (i * i * ((1 - kappa) * (1 - kappa)))
        with (i * i * (1 - kappa) * (1 - kappa)) by ring.
      apply Rmult_le_compat_l; [apply Rmult_le_pos; lra|].
      rewrite Ev. unfold kappa. lra.
    + apply Rmult_le_compat_r; [|lra].
      apply Rmult_le_pos; lra.
Qed.

(** The two constants are the binary64 numbers nearest to the decimal
    literals of the program. *)
Lemma RYDBERG_CONSTANT_nearest :
  Rabs (F2R 7659324246154098 (-49) - 13.60569300984) <= bpow (-50).
Proof. unfold F2R, bpow. simpl. apply Rabs_le. lra. Qed.

Lemma EV_TO_JOULES_nearest :
  Rabs (F2R 6646139978924579 (-115) - 1.6e-19) <= bpow (-116).
Proof. unfold F2R, bpow. simpl. apply Rabs_le. lra. Qed.

(** The two scenarios of the specification: 10.2043 eV for (1, 2, 1) and
    7.74e-18 J for (2, 3, 1). *)
Lemma example_electron_volt :
  calculateBohrEnergy 1 2 1 ELECTRON_VOLT = S754_finite false 5744493184615574 (-49) /\
  Rabs (F2R 5744493184615574 (-49) - 10.2043) < 0.0001.
Proof.
  split; [vm_compute; reflexivity|].
  unfold F2R, bpow. simpl. apply Rabs_def1; lra.
Qed.

Lemma example_joule :
  calculateBohrEnergy 2 3 1 JOULES = S754_finite false 5023630014092905 (-109) /\
  Rabs (F2R 5023630014092905 (-109) - 7.74e-18) < 0.01e-18.
Proof.
  split; [vm_compute; reflexivity|].
  unfold F2R, bpow. simpl. apply Rabs_def1; lra.
Qed.

(** ** Accuracy against the real formula *)

(** The difference of two positive numbers, the first the larger, the
    difference staying in the normal range. *)
Lemma sub_between (lo1 hi1 lo2 hi2 : R) (x y : double) :
  between lo1 hi1 x -> between lo2 hi2 y ->
  bpow (-1021) <= lo1 - hi2 -> hi1 - lo2 <= bpow 1022 ->
  between ((lo1 - hi2) * (1 - eps)) ((hi1 - lo2) * (1 + eps)) (sub x y).
Proof.
  intros (ma & ea & -> & _ & Ea & La & Ua) (mb & eb & -> & _ & Eb & Lb & Ub) Hlo Hhi.
  unfold sub, SFsub. cbn [cond_Zopp].
  set (ez := Z.min ea eb).
  destruct (shl_align_spec ma ea ez) as [E1 M1].
  destruct (shl_align_spec mb eb ez) as [E2 M2].
  cbv zeta in E1, M1, E2, M2.
  replace (Z.min ea ez) with ez in E1 by (unfold ez; lia).
  replace (Z.min eb ez) with ez in E2 by (unfold ez; lia).
  rewrite E1 in M1. rewrite E2 in M2. rewrite M1, M2.
  set (D := (Zpos ma * 2 ^ (ea - ez) - Zpos mb * 2 ^ (eb - ez))%Z).
  assert (HD : IZR D * bpow ez = F2R (Zpos ma) ea - F2R (Zpos mb) eb).
  { unfold D, F2R. rewrite minus_IZR, !mult_IZR, <- !bpow_IZR by (unfold ez; lia).
    replace ea with ((ea - ez) + ez)%Z at 2 by lia.
    replace eb with ((eb - ez) + ez)%Z at 2 by lia.
    rewrite !bpow_add. ring. }
  pose proof (bpow_pos (-1021)) as P.
  assert (D0 : (0 < D)%Z).
  { apply lt_IZR. pose proof (bpow_pos ez).
    apply Rmult_lt_reg_r with (bpow ez); [assumption|]. rewrite HD. lra. }
  destruct D as [|p|p]; try lia.
  unfold binary_normalize. fold (F2R (Zpos p) ez) in HD.
  destruct (binary_round_normal false p ez) as (m & e & E & Hm & He & L & U).
  - rewrite HD. lra.
  - exists m, e. split; [exact E|]. split; [exact Hm|]. split; [exact He|].
    rewrite HD in L, U. pose proof eps_bounds. split.
    + apply Rle_trans with ((F2R (Zpos ma) ea - F2R (Zpos mb) eb) * (1 - eps)); [|exact L].
      apply Rmult_le_compat_r; lra.
    + apply Rle_trans with ((F2R (Zpos ma) ea - F2R (Zpos mb) eb) * (1 + eps)); [exact U|].
      apply Rmult_le_compat_r; lra.
Qed.

(** [1.0 / pow(n, 2)] against the real 1/n^2. *)
Lemma reciprocal_square_tight (n : Z) :
  (1 <= n < 2 ^ 32)%Z ->
  between (/ (IZR n * IZR n) * (1 - delta)) (/ (IZR n * IZR n) * (1 + delta))
    (div (of_Z 1) (pow2 (of_Z n))).
Proof.
  intros Hn.
  destruct (pow2_of_Z_tight n Hn) as (p & e & -> & _ & _ & L & U).
  pose proof (IZR_uint n Hn) as [N1 N2].
  set (S := IZR n * IZR n) in *.
  assert (S1 : 1 <= S) by (unfold S; nra).
  assert (S2 : S <= 4294967295 * 4294967295) by (unfold S; nra).
  pose proof eps_value as Ev.
  set (P := F2R (Zpos p) e) in *.
  assert (B : / 2 <= P <= 36893488147419103232) by (rewrite Ev in L, U; split; nra).
  assert (P0 : 0 < P) by lra.
  assert (IS : 0 < / S) by (apply Rinv_0_lt_compat; lra).
  (* 1/P against 1/S *)
  assert (I1 : / S * (1 - 5 * eps) <= / P).
  { apply Rmult_le_reg_r with (P * S); [nra|].
    replace (/ S * (1 - 5 * eps) * (P * S)) with (P * (1 - 5 * eps)) by (field; lra).
    replace (/ P * (P * S)) with S by (field; lra).
    apply Rle_trans with (S * (1 + 4 * eps) * (1 - 5 * eps)).
    - apply Rmult_le_compat_r; [rewrite Ev; lra|lra].
    - rewrite Rmult_assoc. rewrite <- (Rmult_1_r S) at 2.
      apply Rmult_le_compat_l; [lra|]. rewrite Ev. lra. }
  assert (I2 : / P <= / S * (1 + 5 * eps)).
  { apply Rmult_le_reg_r with (P * S); [nra|].
    replace (/ S * (1 + 5 * eps) * (P * S)) with (P * (1 + 5 * eps)) by (field; lra).
    replace (/ P * (P * S)) with S by (field; lra).
    apply Rle_trans with (S * (1 - 4 * eps) * (1 + 5 * eps)).
    - rewrite Rmult_assoc. rewrite <- (Rmult_1_r S) at 1.
      apply Rmult_le_compat_l; [lra|]. rewrite Ev. lra.
    - apply Rmult_le_compat_r; [rewrite Ev; lra|lra]. }
  eapply between_weaken; [apply reciprocal_between, B| |]; fold P.
  - apply Rle_trans with (/ S * (1 - 5 * eps) * (1 - eps) * (1 - eps)).
    + rewrite !Rmult_assoc. apply Rmult_le_compat_l; [lra|].
      rewrite Ev. unfold delta. lra.
    + apply Rmult_le_compat_r; [rewrite Ev; lra|].
      apply Rmult_le_compat_r; [rewrite Ev; lra|exact I1].
  - apply Rle_trans with (/ S * (1 + 5 * eps) * (1 + eps)).
    + apply Rmult_le_compat_r; [rewrite Ev; lra|exact I2].
    + rewrite !Rmult_assoc. apply Rmult_le_compat_l; [lra|].
      rewrite Ev. unfold delta. lra.
Qed.

Lemma bpow_neg (k : Z) : (0 <= k)%Z -> bpow (- k) = / IZR (2 ^ k).
Proof.
  intros H. rewrite <- bpow_IZR by assumption.
  pose proof (bpow_pos k).
  apply Rmult_eq_reg_r with (bpow k); [|lra].
  rewrite <- bpow_add, Rinv_l by lra.
  replace (- k + k)%Z with 0%Z by lia. reflexivity.
Qed.

(** The gap between the reciprocals of two squares. *)
Lemma gap_bounds (f i : R) :
  1 <= f -> f + 1 <= i -> i <= 4294967295 ->
  let A := / (f * f) in let B := / (i * i) in
  / 340282366920938463463374607431768211456 <= A - B /\ A - B <= 1 /\
  A + B <= 8589934592 * (A - B).
Proof.
  intros F1 FI I2 A B.
  assert (Sf : 1 <= f * f) by nra.
  assert (Si : 1 <= i * i) by nra.
  assert (Sf2 : f * f <= 18446744073709551616) by nra.
  assert (Si2 : i * i <= 18446744073709551616) by nra.
  assert (PA : 0 < A) by (apply Rinv_0_lt_compat; lra).
  assert (PB : 0 < B) by (apply Rinv_0_lt_compat; lra).
  assert (AB : A * B = / (f * f * (i * i))) by (unfold A, B; field; lra).
  assert (Dm : A - B = (i * i - f * f) * (A * B)) by (unfold A, B; field; lra).
  assert (Dp : A + B = (i * i + f * f) * (A * B)) by (unfold A, B; field; lra).
  assert (PAB : 0 < A * B) by nra.
  assert (G1 : i + f <= i * i - f * f) by nra.
  assert (G2 : i * i + f * f <= 8589934592 * (i * i - f * f)) by nra.
  assert (LA : A <= 1).
  { unfold A. rewrite <- Rinv_1. apply Rinv_le_contravar; lra. }
  assert (LAB : / 340282366920938463463374607431768211456 <= A * B).
  { rewrite AB. apply Rinv_le_contravar; [nra|].
    replace 340282366920938463463374607431768211456
      with (18446744073709551616 * 18446744073709551616) by lra.
    apply Rmult_le_compat; lra. }
  split; [|split].
  - assert (X : 1 * (A * B) <= (i * i - f * f) * (A * B))
      by (apply Rmult_le_compat_r; lra).
    lra.
  - lra.
  - assert (X : (i * i + f * f) * (A * B) <= 8589934592 * (i * i - f * f) * (A * B))
      by (apply Rmult_le_compat_r; lra).
    lra.
Qed.

(** [1.0 / pow(nFinal, 2) - 1.0 / pow(nInitial, 2)] against the real
    difference. *)
Lemma difference_tight (nInitial nFinal : Z) :
  (1 <= nFinal)%Z -> (nFinal < nInitial)%Z -> (nInitial < 2 ^ 32)%Z ->
  let G := / (IZR nFinal * IZR nFinal) - / (IZR nInitial * IZR nInitial) in
  between (G * (1 - 2 * eta)) (G * (1 + 2 * eta))
    (sub (div (of_Z 1) (pow2 (of_Z nFinal)))
         (div (of_Z 1) (pow2 (of_Z nInitial)))).
Proof.
  intros H1 H2 H3 G.
  pose proof (IZR_uint nFinal ltac:(lia)) as [F1 F2].
  pose proof (IZR_uint nInitial ltac:(lia)) as [I1 I2].
  assert (FI : IZR nFinal + 1 <= IZR nInitial).
  { rewrite <- plus_IZR. apply IZR_le. lia. }
  destruct (gap_bounds (IZR nFinal) (IZR nInitial) F1 FI I2) as (G1 & G2 & G3).
  fold G in G1, G2, G3.
  set (A := / (IZR nFinal * IZR nFinal)) in *.
  set (B := / (IZR nInitial * IZR nInitial)) in *.
  assert (PA : 0 < A) by (apply Rinv_0_lt_compat; nra).
  assert (PB : 0 < B) by (apply Rinv_0_lt_compat; nra).
  pose proof eps_value as Ev.
  assert (Hd : delta * (A + B) <= eta * G).
  { unfold delta, eta. lra. }
  eapply between_weaken.
  - apply sub_between.
    + apply reciprocal_square_tight. lia.
    + apply reciprocal_square_tight. lia.
    + fold A B. apply Rle_trans with (/ 2 * / 340282366920938463463374607431768211456).
      * apply Rle_trans with (bpow (-129)); [apply bpow_le; lia|].
        replace (bpow (-129)) with (/ IZR (2 ^ 129))
          by (symmetry; apply (bpow_neg 129); lia).
        simpl. lra.
      * unfold eta, delta, G in *. lra.
    + fold A B. apply Rle_trans with 4; [|apply Rle_trans with (bpow 2); [unfold bpow; simpl; lra|apply bpow_le; lia]].
      unfold eta, delta, G in *. lra.
  - fold A B. rewrite Ev. unfold eta in *.
    replace (A * (1 - delta) - B * (1 + delta)) with (G - delta * (A + B)) by (unfold G; ring).
    assert (0 <= G - delta * (A + B)) by lra.
    assert (G * (1 - / 65536) <= G - delta * (A + B)) by lra.
    nra.
  - fold A B. rewrite Ev. unfold eta in *.
    replace (A * (1 + delta) - B * (1 - delta)) with (G + delta * (A + B)) by (unfold G; ring).
    assert (G + delta * (A + B) <= G * (1 + / 65536)) by lra.
    assert (0 <= G + delta * (A + B)) by (unfold delta in *; nra).
    nra.
Qed.

Lemma RYDBERG_CONSTANT_tight :
  between (13.60569300984 * (1 - eps)) (13.60569300984 * (1 + eps)) RYDBERG_CONSTANT.
Proof.
  rewrite RYDBERG_CONSTANT_value. exists 7659324246154098%positive, (-49)%Z.
  split; [reflexivity|]. split; [simpl; lia|]. split; [lia|].
  rewrite eps_value. unfold F2R, bpow. simpl. lra.
Qed.

Lemma EV_TO_JOULES_tight :
  between (1.6e-19 * (1 - eps)) (1.6e-19 * (1 + eps)) EV_TO_JOULES.
Proof.
  replace EV_TO_JOULES with (S754_finite false 6646139978924579 (-115))
    by (vm_compute; reflexivity).
  exists 6646139978924579%positive, (-115)%Z.
  split; [reflexivity|]. split; [simpl; lia|]. split; [lia|].
  rewrite eps_value. unfold F2R, bpow. simpl. lra.
Qed.

Lemma scale_tight (Z : Z) :
  (1 <= Z < 2 ^ 32)%Z ->
  between (13.60569300984 * (IZR Z * IZR Z) * (1 - 7 * eps))
          (13.60569300984 * (IZR Z * IZR Z) * (1 + 7 * eps))
          (mul RYDBERG_CONSTANT (pow2 (of_Z Z))).
Proof.
  intros HZ. pose proof (IZR_uint Z HZ) as [N1 N2].
  set (S := IZR Z * IZR Z).
  assert (S1 : 1 <= S) by (unfold S; nra).
  assert (S2 : S <= 4294967295 * 4294967295) by (unfold S; nra).
  pose proof eps_value as Ev.
  eapply between_weaken.
  - apply mul_between.
    + apply RYDBERG_CONSTANT_tight.
    + apply pow2_of_Z_tight, HZ.
    + rewrite Ev. lra.
    + fold S. rewrite Ev. nra.
    + fold S. apply Rle_trans with (/ 2); [apply tiny; lia|]. rewrite Ev. nra.
    + fold S. apply Rle_trans with (IZR (2 ^ 70)); [|apply huge; lia].
      rewrite Ev. simpl. nra.
  - fold S.
    replace (13.60569300984 * (1 - eps) * (S * (1 - 4 * eps)) * (1 - eps))
      with (13.60569300984 * S * ((1 - eps) * (1 - 4 * eps) * (1 - eps))) by ring.
    apply Rmult_le_compat_l; [lra|]. rewrite Ev. lra.
  - fold S.
    replace (13.60569300984 * (1 + eps) * (S * (1 + 4 * eps)) * (1 + eps))
      with (13.60569300984 * S * ((1 + eps) * (1 + 4 * eps) * (1 + eps))) by ring.
    apply Rmult_le_compat_l; [lra|]. rewrite Ev. lra.
Qed.

(** The energy in electron-volts is the real value of the formula, up
    to a relative error of 2^-14. *)
Lemma electron_volts_accurate (Z nInitial nFinal : Z) :
  (1 <= Z < 2 ^ 32)%Z ->
  (1 <= nFinal)%Z -> (nFinal < nInitial)%Z -> (nInitial < 2 ^ 32)%Z ->
  between (bohr_real Z nInitial nFinal * (1 - 4 * eta))
          (bohr_real Z nInitial nFinal * (1 + 4 * eta))
          (calculateBohrEnergy Z nInitial nFinal ELECTRON_VOLT).
Proof.
  intros HZ H1 H2 H3. unfold calculateBohrEnergy, bohr_real.
  pose proof (IZR_uint Z HZ) as [N1 N2].
  pose proof (IZR_uint nFinal ltac:(lia)) as [F1 F2].
  pose proof (IZR_uint nInitial ltac:(lia)) as [I1 I2].
  assert (FI : IZR nFinal + 1 <= IZR nInitial).
  { rewrite <- plus_IZR. apply IZR_le. lia. }
  destruct (gap_bounds (IZR nFinal) (IZR nInitial) F1 FI I2) as (G1 & G2 & _).
  set (G := / (IZR nFinal * IZR nFinal) - / (IZR nInitial * IZR nInitial)) in *.
  set (S := IZR Z * IZR Z).
  assert (S1 : 1 <= S) by (unfold S; nra).
  assert (S2 : S <= 4294967295 * 4294967295) by (unfold S; nra).
  pose proof eps_value as Ev.
  assert (RS : 13 <= 13.60569300984 * S * (1 - 7 * eps)) by (rewrite Ev; nra).
  assert (RS2 : 13.60569300984 * S * (1 + 7 * eps) <= 14 * (4294967295 * 4294967295))
    by (rewrite Ev; nra).
  assert (GL : / 2 * / 340282366920938463463374607431768211456 <= G * (1 - 2 * eta))
    by (unfold eta; lra).
  assert (GU : G * (1 + 2 * eta) <= 2) by (unfold eta; lra).
  assert (RS0 : 0 <= 13.60569300984 * S * (1 + 7 * eps)) by (rewrite Ev; nra).
  assert (GU0 : 0 <= G * (1 + 2 * eta)) by (unfold eta; lra).
  eapply between_weaken.
  - apply mul_between.
    + apply scale_tight, HZ.
    + apply difference_tight; assumption.
    + fold S. lra.
    + fold G. lra.
    + fold S G.
      apply Rle_trans with (1 * (/ 2 * / 340282366920938463463374607431768211456)).
      * apply Rle_trans with (bpow (-129)); [apply bpow_le; lia|].
        replace (bpow (-129)) with (/ IZR (2 ^ 129))
          by (symmetry; apply (bpow_neg 129); lia).
        simpl. lra.
      * apply Rmult_le_compat; lra.
    + fold S G. apply Rle_trans with (IZR (2 ^ 70)); [|apply huge; lia].
      apply Rle_trans with (14 * (4294967295 * 4294967295) * 2).
      * apply Rmult_le_compat; lra.
      * simpl. lra.
  - fold S G.
    replace (13.60569300984 * S * (1 - 7 * eps) * (G * (1 - 2 * eta)) * (1 - eps))
      with (13.60569300984 * S * G * ((1 - 7 * eps) * (1 - 2 * eta) * (1 - eps))) by ring.
    apply Rmult_le_compat_l; [|rewrite Ev; unfold eta; lra].
    apply Rmult_le_pos; [lra|lra].
  - fold S G.
    replace (13.60569300984 * S * (1 + 7 * eps) * (G * (1 + 2 * eta)) * (1 + eps))
      with (13.60569300984 * S * G * ((1 + 7 * eps) * (1 + 2 * eta) * (1 + eps))) by ring.
    apply Rmult_le_compat_l; [|rewrite Ev; unfold eta; lra].
    apply Rmult_le_pos; [lra|lra].
Qed.

(** For a transition to a lower level, [calculateBohrEnergy] returns a
    positive finite number within a relative error of 2^-13 of the real
    value of the formula. *)
Lemma calculateBohrEnergy_accurate (Z nInitial nFinal : Z) (unit : EnergyType) :
  (1 <= Z < 2 ^ 32)%Z ->
  (1 <= nFinal)%Z -> (nFinal < nInitial)%Z -> (nInitial < 2 ^ 32)%Z ->
  between (bohr_real_in Z nInitial nFinal unit * (1 - 8 * eta))
          (bohr_real_in Z nInitial nFinal unit * (1 + 8 * eta))
          (calculateBohrEnergy Z nInitial nFinal unit).
Proof.
  intros HZ H1 H2 H3.
  pose proof (electron_volts_accurate Z nInitial nFinal HZ H1 H2 H3) as B.
  (* the size of the real value *)
  pose proof (IZR_uint Z HZ) as [N1 N2].
  pose proof (IZR_uint nFinal ltac:(lia)) as [F1 F2].
  pose proof (IZR_uint nInitial ltac:(lia)) as [I1 I2].
  assert (FI : IZR nFinal + 1 <= IZR nInitial).
  { rewrite <- plus_IZR. apply IZR_le. lia. }
  destruct (gap_bounds (IZR nFinal) (IZR nInitial) F1 FI I2) as (G1 & G2 & _).
  assert (S1 : 1 <= IZR Z * IZR Z) by nra.
  assert (S2 : IZR Z * IZR Z <= 4294967295 * 4294967295) by nra.
  assert (E1 : 13 * / 340282366920938463463374607431768211456 <= bohr_real Z nInitial nFinal).
  { unfold bohr_real. apply Rmult_le_compat; lra. }
  assert (E2 : bohr_real Z nInitial nFinal <= 14 * (4294967295 * 4294967295) * 1).
  { unfold bohr_real. apply Rmult_le_compat; lra. }
  set (E := bohr_real Z nInitial nFinal) in *.
  pose proof eps_value as Ev.
  destruct unit; cbn [bohr_real_in]; fold E.
  - eapply between_weaken; [exact B| |]; unfold eta; lra.
  - change (calculateBohrEnergy Z nInitial nFinal JOULES)
      with (mul (calculateBohrEnergy Z nInitial nFinal ELECTRON_VOLT) EV_TO_JOULES).
    eapply between_weaken.
    + apply mul_between.
      * exact B.
      * apply EV_TO_JOULES_tight.
      * unfold eta. lra.
      * rewrite Ev. lra.
      * apply Rle_trans with (12 * / 340282366920938463463374607431768211456 * 1.0e-19).
        -- apply Rle_trans with (bpow (-200)); [apply bpow_le; lia|].
           replace (bpow (-200)) with (/ IZR (2 ^ 200))
             by (symmetry; apply (bpow_neg 200); lia).
           simpl. lra.
        -- apply Rmult_le_compat; [lra|lra|unfold eta; lra|rewrite Ev; lra].
      * apply Rle_trans with (IZR (2 ^ 70)); [|apply huge; lia].
        apply Rle_trans with (15 * (4294967295 * 4294967295) * 1).
        -- apply Rmult_le_compat; [unfold eta; lra|rewrite Ev; lra|unfold eta; lra|rewrite Ev; lra].
        -- simpl. lra.
    + replace (E * (1 - 4 * eta) * (1.6e-19 * (1 - eps)) * (1 - eps))
        with (E * 1.6e-19 * ((1 - 4 * eta) * (1 - eps) * (1 - eps))) by ring.
      apply Rmult_le_compat_l; [lra|]. rewrite Ev. unfold eta. lra.
    + replace (E * (1 + 4 * eta) * (1.6e-19 * (1 + eps)) * (1 + eps))
        with (E * 1.6e-19 * ((1 + 4 * eta) * (1 + eps) * (1 + eps))) by ring.
      apply Rmult_le_compat_l; [lra|]. rewrite Ev. unfold eta. lra.
Qed.

End Binary64.

Import Value Rounding Binary64.

Lemma EV_TO_JOULES_value :
  EV_TO_JOULES = S754_finite false 6646139978924579 (-115).
Proof. vm_compute. reflexivity. Qed.

Lemma scale_zero : mul RYDBERG_CONSTANT (pow2 (of_Z 0)) = S754_zero false.
Proof. vm_compute. reflexivity. Qed.

(** With equal levels the two reciprocals are the same number, their
    difference is +0 and so is every product that follows. *)
Lemma equal_levels_zero (Z n : Z) (eType : EnergyType) :
  0 <= Z < 2 ^ 32 -> 1 <= n < 2 ^ 32 ->
  calculateBohrEnergy Z n n eType = S754_zero false.
Proof.
  intros HZ Hn. unfold calculateBohrEnergy.
  destruct (pow2_of_Z_between n Hn) as (p & e & -> & _ & _ & L & U).
  assert (B : (/ 2 <= F2R (Zpos p) e <= 36893488147419103232)%R).
  { pose proof (IZR_uint n Hn) as [N1 N2].
    assert (1 <= IZR n * IZR n)%R by nra.
    assert (IZR n * IZR n <= 4294967295 * 4294967295)%R by nra.
    unfold kappa in *. split; nra. }
  destruct (reciprocal_between p e B) as (ma & ea & -> & _).
  rewrite sub_diag.
  assert (E : mul (mul RYDBERG_CONSTANT (pow2 (of_Z Z))) (S754_zero false) = S754_zero false).
  { destruct (Z.eq_dec Z 0) as [->|NZ].
    - rewrite scale_zero. reflexivity.
    - destruct (scale_between Z ltac:(lia)) as (mr & er & -> & _). reflexivity. }
  rewrite E. destruct eType; [reflexivity|].
  rewrite EV_TO_JOULES_value. reflexivity.
Qed.

(** C5: for Z >= 1 and n1 > n2 >= 1 (values of [unsigned int]) the energy
    in electron-volts is strictly positive. *)
Theorem transition_energy_positive (Z n1 n2 : Z) :
  1 <= Z < 2 ^ 32 -> 1 <= n2 -> n2 < n1 -> n1 < 2 ^ 32 ->
  gt_zero (calculateBohrEnergy Z n1 n2 ELECTRON_VOLT) = true.
Proof.
  intros HZ H1 H2 H3. unfold calculateBohrEnergy.
  apply gt_zero_pos.
  apply mul_positive with (lo := 1%R) (hi := IZR (2 ^ 70)).
  - apply scale_between, HZ.
  - lra.
  - apply difference_positive; assumption.
Qed.


Lemma build_not_nan (sx : bool) (m e : Z) : (0 <= m)%Z -> is_nan (build sx m e) = false.
Proof.
  intros H. destruct m as [|p|p]; [reflexivity| |lia].
  unfold build. now destruct (e <=? emax - prec)%Z.
Qed.

Lemma binary_round_aux_not_nan (sx : bool) (mx ex : Z) (lx : location) :
  (0 < mx)%Z -> is_nan (binary_round_aux prec emax sx mx ex lx) = false.
Proof.
  intros H. destruct (binary_round_aux_spec sx mx ex lx H) as (m2 & e2 & -> & He & Ht).
  apply build_not_nan.
  assert (0 <= mx / 2 ^ (Z.max ex (Z.max (Zdigits2 mx + ex - 53) (-1074)) - ex))%Z
    by (apply Z.div_pos; [lia|apply Z.pow_pos_nonneg; lia]).
  assert (0 < 2 ^ (e2 - Z.max ex (Z.max (Zdigits2 mx + ex - 53) (-1074))))%Z
    by (apply Z.pow_pos_nonneg; lia).
  nia.
Qed.

(** Rounding does not overflow when the exponents stay low. *)
Lemma binary_round_aux_finite (sx : bool) (mx ex : Z) (lx : location) :
  (0 < mx)%Z -> (ex <= 970)%Z -> (Zdigits2 mx + ex <= 1023)%Z ->
  is_finite (binary_round_aux prec emax sx mx ex lx) = true.
Proof.
  intros H Hex Hd. destruct (binary_round_aux_spec sx mx ex lx H) as (m2 & e2 & -> & He & Ht).
  assert (0 <= mx / 2 ^ (Z.max ex (Z.max (Zdigits2 mx + ex - 53) (-1074)) - ex))%Z
    by (apply Z.div_pos; [lia|apply Z.pow_pos_nonneg; lia]).
  assert (0 < 2 ^ (e2 - Z.max ex (Z.max (Zdigits2 mx + ex - 53) (-1074))))%Z
    by (apply Z.pow_pos_nonneg; lia).
  assert (0 <= m2)%Z by nia.
  destruct m2 as [|p|p]; [reflexivity| |lia].
  unfold build.
  assert (L971 : (e2 <=? emax - prec)%Z = true)
    by (apply Z.leb_le; unfold emax, prec; lia).
  now rewrite L971.
Qed.

Lemma binary_round_finite (sx : bool) (m : positive) (e : Z) :
  (e <= 970)%Z -> (Zpos (digits2_pos m) + e <= 1023)%Z ->
  is_finite (binary_round prec emax sx m e) = true.
Proof.
  intros He Hd. unfold binary_round.
  destruct (shl_align_spec m e (SpecFloat.fexp prec emax (Zpos (digits2_pos m) + e))) as [E M].
  cbv zeta in E, M.
  pose proof (shl_align_F2R m e (SpecFloat.fexp prec emax (Zpos (digits2_pos m) + e))) as V.
  destruct (shl_align m e _) as [mz ez]. cbn [fst snd] in *.
  apply binary_round_aux_finite; [lia|lia|].
  destruct (F2R_digits (Zpos mz) ez ltac:(lia)) as [L _].
  destruct (F2R_digits (Zpos m) e ltac:(lia)) as [_ U].
  rewrite V in L. simpl Zdigits2 in U.
  assert (bpow (Zdigits2 (Zpos mz) - 1 + ez) < bpow (Zpos (digits2_pos m) + e))%R by lra.
  apply bpow_lt_inv in H. lia.
Qed.

(** The difference of two positive numbers below 4 is zero or finite. *)
Lemma sub_finite (lo1 lo2 : R) (x y : double) :
  between lo1 4 x -> between lo2 4 y -> is_finite (sub x y) = true.
Proof.
  intros (ma & ea & -> & Ma & Ea & _ & Ua) (mb & eb & -> & Mb & Eb & _ & Ub).
  assert (Ha : (Zpos (digits2_pos ma) + ea <= 3)%Z).
  { destruct (F2R_digits (Zpos ma) ea ltac:(lia)) as [L _]. simpl Zdigits2 in L.
    assert (bpow (Zpos (digits2_pos ma) - 1 + ea) <= bpow 2)%R
      by (apply Rle_trans with 4%R; [lra|unfold bpow; simpl; lra]).
    apply bpow_le_inv in H. lia. }
  assert (Hb : (Zpos (digits2_pos mb) + eb <= 3)%Z).
  { destruct (F2R_digits (Zpos mb) eb ltac:(lia)) as [L _]. simpl Zdigits2 in L.
    assert (bpow (Zpos (digits2_pos mb) - 1 + eb) <= bpow 2)%R
      by (apply Rle_trans with 4%R; [lra|unfold bpow; simpl; lra]).
    apply bpow_le_inv in H. lia. }
  unfold sub, SFsub. cbn [cond_Zopp].
  set (ez := Z.min ea eb).
  destruct (shl_align_spec ma ea ez) as [E1 M1].
  destruct (shl_align_spec mb eb ez) as [E2 M2].
  cbv zeta in E1, M1, E2, M2.
  replace (Z.min ea ez) with ez in E1 by (unfold ez; lia).
  replace (Z.min eb ez) with ez in E2 by (unfold ez; lia).
  rewrite E1 in M1. rewrite E2 in M2. rewrite M1, M2.
  set (A := (Zpos ma * 2 ^ (ea - ez))%Z). set (B := (Zpos mb * 2 ^ (eb - ez))%Z).
  assert (HA : (0 < A < 2 ^ (3 - ez))%Z).
  { unfold A. destruct (digits2_pos_bounds ma) as [_ U].
    assert (0 < 2 ^ (ea - ez))%Z by (apply Z.pow_pos_nonneg; unfold ez; lia).
    split; [lia|].
    apply Z.lt_le_trans with (2 ^ Zpos (digits2_pos ma) * 2 ^ (ea - ez))%Z; [nia|].
    rewrite <- Z.pow_add_r by (unfold ez; lia). apply Z.pow_le_mono_r; lia. }
  assert (HB : (0 < B < 2 ^ (3 - ez))%Z).
  { unfold B. destruct (digits2_pos_bounds mb) as [_ U].
    assert (0 < 2 ^ (eb - ez))%Z by (apply Z.pow_pos_nonneg; unfold ez; lia).
    split; [lia|].
    apply Z.lt_le_trans with (2 ^ Zpos (digits2_pos mb) * 2 ^ (eb - ez))%Z; [nia|].
    rewrite <- Z.pow_add_r by (unfold ez; lia). apply Z.pow_le_mono_r; lia. }
  assert (Hez : (ez <= 2)%Z).
  { pose proof (Pos2Z.is_pos (digits2_pos ma)). unfold ez. lia. }
  clearbody A B.
  destruct (A - B)%Z as [|p|p] eqn:D; [reflexivity| |]; unfold binary_normalize.
  - apply binary_round_finite; [lia|].
    assert (Zpos (digits2_pos p) <= 3 - ez)%Z; [|lia].
    apply (Zdigits2_le (Zpos p)); lia.
  - apply binary_round_finite; [lia|].
    assert (Zpos (digits2_pos p) <= 3 - ez)%Z; [|lia].
    apply (Zdigits2_le (Zpos p)); lia.
Qed.

Lemma mul_not_nan (x y : double) :
  is_finite x = true -> is_finite y = true -> is_nan (mul x y) = false.
Proof.
  destruct x as [sx|sx| |sx mx ex]; try discriminate;
  destruct y as [sy|sy| |sy my ey]; try discriminate; intros _ _; try reflexivity.
  unfold mul. cbn [SFmul]. apply binary_round_aux_not_nan. lia.
Qed.

Lemma mul_by_finite_not_nan (x : double) (s : bool) (m : positive) (e : Z) :
  is_nan x = false -> is_nan (mul x (S754_finite s m e)) = false.
Proof.
  destruct x as [sx|sx| |sx mx ex]; try discriminate; intros _; try reflexivity.
  unfold mul. cbn [SFmul]. apply binary_round_aux_not_nan. lia.
Qed.

Lemma reciprocal_square_between (n : Z) :
  1 <= n < 2 ^ 32 ->
  between 0 4 (div (of_Z 1) (pow2 (of_Z n))).
Proof.
  intros Hn.
  destruct (pow2_of_Z_between n Hn) as (p & e & -> & _ & _ & L & U).
  pose proof (IZR_uint n Hn) as [N1 N2].
  assert (1 <= IZR n * IZR n)%R by nra.
  assert (IZR n * IZR n <= 4294967295 * 4294967295)%R by nra.
  assert (B : (/ 2 <= F2R (Zpos p) e <= 36893488147419103232)%R)
    by (unfold kappa in *; split; nra).
  pose proof eps_value as Ev.
  assert (I2 : (0 < / F2R (Zpos p) e <= 2)%R).
  { split; [apply Rinv_0_lt_compat; lra|].
    rewrite <- (Rinv_inv 2). apply Rinv_le_contravar; lra. }
  eapply between_weaken; [apply reciprocal_between, B| |].
  - rewrite Ev. apply Rmult_le_pos; [apply Rmult_le_pos|]; lra.
  - rewrite Ev. nra.
Qed.

Lemma energy_not_nan (Z nInitial nFinal : Z) (eType : EnergyType) :
  0 <= Z < 2 ^ 32 -> 1 <= nInitial < 2 ^ 32 -> 1 <= nFinal < 2 ^ 32 ->
  is_nan (calculateBohrEnergy Z nInitial nFinal eType) = false.
Proof.
  intros HZ HI HF. unfold calculateBohrEnergy.
  assert (D : is_finite (sub (div (of_Z 1) (pow2 (of_Z nFinal)))
                             (div (of_Z 1) (pow2 (of_Z nInitial)))) = true).
  { eapply sub_finite; apply reciprocal_square_between; assumption. }
  assert (S : is_finite (mul RYDBERG_CONSTANT (pow2 (of_Z Z))) = true).
  { destruct (Z.eq_dec Z 0) as [->|NZ].
    - rewrite scale_zero. reflexivity.
    - destruct (scale_between Z ltac:(lia)) as (mr & er & -> & _). reflexivity. }
  pose proof (mul_not_nan _ _ S D) as E.
  destruct eType; [exact E|].
  rewrite EV_TO_JOULES_value. apply mul_by_finite_not_nan, E.
Qed.


(** C1: [calculateBohrEnergy] returns the formula of the specification
    R * Z^2 * (1/nFinal^2 - 1/nInitial^2), in electron-volts, and that
    value times 1.6e-19 in joules, every operation being the binary64
    one.  With nonzero levels the divisions are defined: the result is a
    number; and for a transition to a lower level it is the real value of
    the formula, with R = 13.60569300984, up to a relative error of
    2^-13. *)
Theorem calculateBohrEnergy_formula :
  forall (Z nInitial nFinal : Z) (unit : EnergyType),
    calculateBohrEnergy Z nInitial nFinal unit = bohrEnergy Z nInitial nFinal unit /\
    (0 <= Z < 2 ^ 32 -> 1 <= nInitial < 2 ^ 32 -> 1 <= nFinal < 2 ^ 32 ->
     is_nan (calculateBohrEnergy Z nInitial nFinal unit) = false) /\
    (1 <= Z < 2 ^ 32 -> 1 <= nFinal -> nFinal < nInitial -> nInitial < 2 ^ 32 ->
     between (bohr_real_in Z nInitial nFinal unit * (1 - 8 * eta))%R
             (bohr_real_in Z nInitial nFinal unit * (1 + 8 * eta))%R
             (calculateBohrEnergy Z nInitial nFinal unit)).
Proof.
  intros Z nInitial nFinal unit. split; [now destruct unit|]. split.
  - apply energy_not_nan.
  - apply calculateBohrEnergy_accurate.
Qed.

Lemma calculateBohrEnergy_formula_witness :
  (0 <= 2 < 2 ^ 32 /\ 1 <= 3 < 2 ^ 32 /\ 1 <= 1 < 2 ^ 32) /\
  is_nan (calculateBohrEnergy 2 3 1 JOULES) = false /\
  between (bohr_real_in 2 3 1 JOULES * (1 - 8 * eta))%R
          (bohr_real_in 2 3 1 JOULES * (1 + 8 * eta))%R
          (calculateBohrEnergy 2 3 1 JOULES).
Proof.
  split; [lia|]. split.
  - apply (proj1 (proj2 (calculateBohrEnergy_formula 2 3 1 JOULES))); lia.
  - apply (proj2 (proj2 (calculateBohrEnergy_formula 2 3 1 JOULES))); lia.
Defined.


Lemma transition_energy_positive_witness :
  (1 <= 1 < 2 ^ 32 /\ 1 <= 1 /\ 1 < 2 /\ 2 < 2 ^ 32) /\
  gt_zero (calculateBohrEnergy 1 2 1 ELECTRON_VOLT) = true.
Proof.
  split; [lia|].
  apply (transition_energy_positive 1 2 1); lia.
Defined.

(** C9: equal levels pass the check of the ordering: the pass goes on to
    the unit question, [calculateBohrEnergy] is called with the two equal
    levels, and its result is exactly +0 in either unit. *)
Theorem equal_levels_pass :
  forall (s : state) (Z n : Z) (w1 w2 w3 w4 : console) (eType : EnergyType),
    ask_int prompt_Z (con s) = (Some Z, w1) ->
    ask_int prompt_nInitial w1 = (Some n, w2) ->
    ask_int prompt_nFinal w2 = (Some n, w3) ->
    1 <= n ->
    getEnergyType (print unit_question w3) = (Break eType, w4) ->
    calculateBohrEnergy Z n n ELECTRON_VOLT = S754_zero false /\
    calculateBohrEnergy Z n n JOULES = S754_zero false /\
    exists rB w5,
      getBool (print (report Z n n eType (S754_zero false) ++ continue_question) w4)
        = (rB, w5) /\
      body s =
        match value_of rB with
        | Some true => Again false
        | Some false => Stop
        | None => Undefined
        end {| con := w5;
               calls := calls s ++
                 [{| arg_Z := Z; arg_nInitial := n; arg_nFinal := n;
                     arg_eType := eType |}] |}.
Proof.
  intros s vZ n w1 w2 w3 w4 eType E1 E2 E3 Hn E4.
  destruct (ask_int_Some _ _ _ _ E1) as (_ & RZ & _).
  destruct (ask_int_Some _ _ _ _ E2) as (_ & Rn & _).
  assert (Zero : forall u, calculateBohrEnergy vZ n n u = S754_zero false)
    by (intros u; apply equal_levels_zero; lia).
  split; [apply Zero|]. split; [apply Zero|].
  unfold body. rewrite E1, E2, E3, Z.ltb_irrefl, E4. cbn [value_of].
  rewrite Zero.
  destruct (getBool _) as [rB w5]. exists rB, w5. split; [reflexivity|].
  now destruct (value_of rB) as [[|]|].
Qed.

Lemma equal_levels_pass_witness :
  let s := {| con := {| cin := ["3"; "2"; "2"; "j"; "n"]%string; cout := [] |};
              calls := [] |} in
  calculateBohrEnergy 3 2 2 ELECTRON_VOLT = S754_zero false /\
  calculateBohrEnergy 3 2 2 JOULES = S754_zero false.
Proof.
  intros s.
  refine ((fun H => conj (proj1 H) (proj1 (proj2 H)))
            (equal_levels_pass s 3 2 _ _ _ _ JOULES _ _ _ _ _));
    [reflexivity | reflexivity | reflexivity | lia | reflexivity].
Defined.

(** * Further properties of the readers *)

Lemma fold_case_length (a : string) :
  String.length (fold_case a) = String.length a.
Proof. induction a as [|c a IH]; simpl; [reflexivity|now rewrite IH]. Qed.

Lemma fold_case_no_capitals (a : string) :
  no_capitals a = true -> fold_case a = a.
Proof.
  induction a as [|c a IH]; simpl; [reflexivity|].
  intros H. apply andb_true_iff in H. destruct H as [Hc Ha].
  unfold Chars.tolower. apply negb_true_iff in Hc. rewrite Hc.
  now rewrite IH.
Qed.

(** X1: [icompare] is an equivalence on strings, and strings it takes
    for equal have the same length. *)
Theorem icompare_equivalence :
  (forall a, icompare a a = true) /\
  (forall a b, icompare a b = icompare b a) /\
  (forall a b c, icompare a b = true -> icompare b c = true -> icompare a c = true) /\
  (forall a b, icompare a b = true -> String.length a = String.length b).
Proof.
  split; [|split; [|split]].
  - intros a. rewrite icompare_fold. apply String.eqb_refl.
  - intros a b. rewrite !icompare_fold. apply String.eqb_sym.
  - intros a b c. rewrite !icompare_fold, !String.eqb_eq. congruence.
  - intros a b. rewrite icompare_fold, String.eqb_eq. intros H.
    rewrite <- (fold_case_length a), <- (fold_case_length b). now rewrite H.
Qed.

Lemma icompare_equivalence_witness :
  icompare "Yes" "yEs" = true /\ icompare "yEs" "YES" = true /\
  icompare "Yes" "YES" = true.
Proof.
  split; [reflexivity|]. split; [reflexivity|].
  apply (proj1 (proj2 (proj2 icompare_equivalence)) "Yes"%string "yEs"%string "YES"%string);
    reflexivity.
Defined.

(** X2: on strings without the letters 'A'..'Z', [icompare] is plain
    equality: only the case of a letter is ever ignored. *)
Theorem icompare_no_capitals (a b : string) :
  no_capitals a = true -> no_capitals b = true ->
  icompare a b = String.eqb a b.
Proof.
  intros Ha Hb. rewrite icompare_fold.
  now rewrite (fold_case_no_capitals a Ha), (fold_case_no_capitals b Hb).
Qed.

Lemma icompare_no_capitals_witness :
  no_capitals "e-v 1" = true /\ no_capitals "e-v 2" = true /\
  icompare "e-v 1" "e-v 2" = String.eqb "e-v 1" "e-v 2".
Proof.
  split; [reflexivity|]. split; [reflexivity|].
  apply (icompare_no_capitals "e-v 1"%string "e-v 2"%string); reflexivity.
Defined.

Lemma found_validTrues (line : string) : found validTrues line = is_true_word line.
Proof.
  rewrite found_member; unfold member_folded, is_true_word, validTrues.
  simpl existsb. now rewrite !(String.eqb_sym (fold_case line)).
Qed.

Lemma found_validFalses (line : string) : found validFalses line = is_false_word line.
Proof.
  rewrite found_member; unfold member_folded, is_false_word, validFalses.
  simpl existsb. now rewrite !(String.eqb_sym (fold_case line)).
Qed.

Lemma answers_disjoint (line : string) :
  is_true_word line && is_false_word line = false.
Proof.
  unfold is_true_word, is_false_word; simpl existsb.
  repeat match goal with
  | |- context [String.eqb (fold_case line) ?s] =>
      destruct (String.eqb_spec (fold_case line) s) as [->|_]; [reflexivity|]
  end.
  reflexivity.
Qed.

Lemma is_true_word_one_of (line : string) :
  is_true_word line = one_of yes_words line.
Proof. rewrite <- found_validTrues. apply found_one_of. Qed.

Lemma is_false_word_one_of (line : string) :
  is_false_word line = one_of no_words line.
Proof. rewrite <- found_validFalses. apply found_one_of. Qed.

(** X3: [getBool] gives true on a line that, the case of letters apart,
    is yes, y, true or 1, false on one that is no, n, false or 0 (no
    line is both), and on any other line writes the notice and its
    prompt and reads on.  So "Y" and "TRUE" give true, "No" and "FALSE"
    give false, and "maybe" is asked again. *)
Theorem getBool_line :
  (forall line lines out,
      getBool {| cin := line :: lines; cout := out |} =
      if one_of yes_words line
      then (Break true, {| cin := lines; cout := out |})
      else if one_of no_words line
      then (Break false, {| cin := lines; cout := out |})
      else getBool {| cin := lines; cout := out ++ not_valid ++ bool_prompt |}) /\
  (forall line, one_of yes_words line && one_of no_words line = false) /\
  (forall lines out,
      getBool {| cin := "Y"%string :: lines; cout := out |}
      = (Break true, {| cin := lines; cout := out |})) /\
  (forall lines out,
      getBool {| cin := "TRUE"%string :: lines; cout := out |}
      = (Break true, {| cin := lines; cout := out |})) /\
  (forall lines out,
      getBool {| cin := "No"%string :: lines; cout := out |}
      = (Break false, {| cin := lines; cout := out |})) /\
  (forall lines out,
      getBool {| cin := "FALSE"%string :: lines; cout := out |}
      = (Break false, {| cin := lines; cout := out |})) /\
  (forall lines out,
      getBool {| cin := "maybe"%string :: lines; cout := out |}
      = getBool {| cin := lines; cout := out ++ not_valid ++ bool_prompt |}).
Proof.
  split; [|split; [|repeat split; reflexivity]].
  - intros; unfold getBool, getBetweenTwoStringSetOptions.
    cbn [cin cout choice_loop].
    rewrite found_validTrues, found_validFalses.
    rewrite <- is_true_word_one_of, <- is_false_word_one_of.
    destruct (is_true_word line); [reflexivity|].
    destruct (is_false_word line); reflexivity.
  - intros line. rewrite <- is_true_word_one_of, <- is_false_word_one_of.
    apply answers_disjoint.
Qed.

Lemma notices_cons (notice : list output) (line : string) (lines : list string)
    (out : list output) :
  out ++ notices notice (line :: lines) = (out ++ notice) ++ notices notice lines.
Proof. unfold notices; simpl. now rewrite app_assoc. Qed.

(** X4: the choice reader refuses the lines that are in neither set,
    writing the notice and the message after each, and returns on the
    first line that is in one: 1 for the first set (also when the line is
    in both), -1 for the second.  The lines after it stay unread. *)
Theorem getBetweenTwoStringSetOptions_run :
  forall (message : list output) (first second : list string)
         (skipped : list string) (line : string) (rest : list string)
         (out : list output),
    Forall (fun l => member_folded first l = false /\
                     member_folded second l = false) skipped ->
    member_folded first line || member_folded second line = true ->
    getBetweenTwoStringSetOptions message first second
      {| cin := skipped ++ line :: rest; cout := out |} =
    (Break (if member_folded first line then 1 else -1),
     {| cin := rest; cout := out ++ notices (not_valid ++ message) skipped |}).
Proof.
  intros message first second skipped line rest.
  unfold getBetweenTwoStringSetOptions; cbn [cin cout].
  induction skipped as [|l sk IH]; intros out Hs Hl.
  - simpl. rewrite !found_member. unfold notices; simpl. rewrite app_nil_r.
    destruct (member_folded first line); [reflexivity|].
    simpl in Hl. now rewrite Hl.
  - inversion Hs as [|? ? [H1 H2] Hs']; subst.
    simpl. rewrite !found_member, H1, H2.
    rewrite notices_cons. apply IH; assumption.
Qed.

Lemma getBetweenTwoStringSetOptions_run_witness :
  getBetweenTwoStringSetOptions bool_prompt validTrues validFalses
    {| cin := ["maybe"; "NO"; "yes"]%string; cout := [] |} =
  (Break (-1),
   {| cin := ["yes"]%string;
      cout := notices (not_valid ++ bool_prompt) ["maybe"]%string |}).
Proof.
  apply (getBetweenTwoStringSetOptions_run bool_prompt validTrues validFalses
           ["maybe"]%string "NO"%string ["yes"]%string []).
  - constructor; [split; reflexivity|constructor].
  - reflexivity.
Defined.

(** X5: when no line of the input is in either set, the choice reader
    takes them all, writes the notice and the message after each, and
    returns with [response] never assigned. *)
Theorem getBetweenTwoStringSetOptions_exhausted :
  forall (message : list output) (first second : list string)
         (lines : list string) (out : list output),
    Forall (fun l => member_folded first l = false /\
                     member_folded second l = false) lines ->
    getBetweenTwoStringSetOptions message first second
      {| cin := lines; cout := out |} =
    (Eof None,
     {| cin := []; cout := out ++ notices (not_valid ++ message) lines |}).
Proof.
  intros message first second lines.
  unfold getBetweenTwoStringSetOptions; cbn [cin cout].
  induction lines as [|l sk IH]; intros out Hs.
  - simpl. unfold notices; simpl. now rewrite app_nil_r.
  - inversion Hs as [|? ? [H1 H2] Hs']; subst.
    simpl. rewrite !found_member, H1, H2.
    rewrite notices_cons. apply IH; assumption.
Qed.

Lemma getBetweenTwoStringSetOptions_exhausted_witness :
  getBetweenTwoStringSetOptions bool_prompt validTrues validFalses
    {| cin := ["maybe"; "perhaps"]%string; cout := [] |} =
  (Eof None,
   {| cin := [];
      cout := notices (not_valid ++ bool_prompt) ["maybe"; "perhaps"]%string |}).
Proof.
  apply (getBetweenTwoStringSetOptions_exhausted bool_prompt validTrues validFalses
           ["maybe"; "perhaps"]%string []).
  repeat constructor.
Defined.

(** ** Lines that hold a number *)

Lemma isdigit_not_space (c : ascii) :
  Chars.isdigit c = true -> Chars.isspace c = false.
Proof.
  unfold Chars.isdigit, Chars.isspace. rewrite andb_true_iff, !Z.leb_le.
  intros [H1 H2]. apply orb_false_iff. split.
  - apply Z.eqb_neq. lia.
  - apply andb_false_iff. right. apply Z.leb_gt. lia.
Qed.

Lemma isdigit_not_sign (c : ascii) :
  Chars.isdigit c = true ->
  Ascii.eqb c "-"%char = false /\ Ascii.eqb c "+"%char = false.
Proof.
  intros H. split.
  - destruct (Ascii.eqb_spec c "-"%char) as [->|]; [discriminate H|reflexivity].
  - destruct (Ascii.eqb_spec c "+"%char) as [->|]; [discriminate H|reflexivity].
Qed.

Lemma skipws_blank_app (pre s : string) :
  blank pre = true -> Stream.skipws (pre ++ s) = Stream.skipws s.
Proof.
  induction pre as [|c pre IH]; simpl; [reflexivity|].
  intros H. apply andb_true_iff in H. destruct H as [Hc Hp].
  rewrite Hc. now apply IH.
Qed.

Lemma skipws_blank (s : string) :
  Stream.empty (Stream.read_word (Stream.skipws s)) = blank s.
Proof.
  induction s as [|c s IH]; simpl; [reflexivity|].
  destruct (Chars.isspace c) eqn:E; simpl; [exact IH|].
  now rewrite E.
Qed.

Lemma read_digits_app (num rest : string) :
  all_digits num = true -> starts_with_digit rest = false ->
  Stream.read_digits (num ++ rest) =
  (map Chars.digit_value (list_ascii_of_string num), rest).
Proof.
  intros Hn Hr. induction num as [|c num IH]; cbn [append list_ascii_of_string map].
  - destruct rest as [|c r]; [reflexivity|].
    cbn [starts_with_digit] in Hr. cbn [Stream.read_digits]. now rewrite Hr.
  - cbn [all_digits] in Hn. apply andb_true_iff in Hn. destruct Hn as [Hc Hn].
    cbn [Stream.read_digits]. rewrite Hc, (IH Hn). reflexivity.
Qed.

Lemma skipws_signed (sg : sign_mark) (c : ascii) (s : string) :
  Chars.isdigit c = true ->
  Stream.skipws (sign_text sg ++ String c s) = (sign_text sg ++ String c s)%string.
Proof.
  intros Hc. destruct sg; cbn [sign_text append Stream.skipws].
  - now rewrite (isdigit_not_space c Hc).
  - reflexivity.
  - reflexivity.
Qed.

Lemma read_sign_signed (sg : sign_mark) (c : ascii) (s : string) :
  Chars.isdigit c = true ->
  Stream.read_sign (sign_text sg ++ String c s) =
  (match sg with Minus => true | _ => false end, String c s).
Proof.
  intros Hc. destruct sg; cbn [sign_text append Stream.read_sign].
  - destruct (isdigit_not_sign c Hc) as [-> ->]. reflexivity.
  - reflexivity.
  - reflexivity.
Qed.

(** The field read from a line that holds a number. *)
Lemma extract_number (old : Z) (pre num rest : string) (sg : sign_mark) :
  blank pre = true -> all_digits num = true -> num <> EmptyString ->
  starts_with_digit rest = false ->
  let v := signed sg (digits_value num) in
  Stream.extract_long_long old (pre ++ sign_text sg ++ num ++ rest) =
  if v <? Stream.LLONG_MIN
  then {| Stream.stored := Stream.LLONG_MIN; Stream.failbit := true;
          Stream.unread := rest |}
  else if Stream.LLONG_MAX <? v
  then {| Stream.stored := Stream.LLONG_MAX; Stream.failbit := true;
          Stream.unread := rest |}
  else {| Stream.stored := v; Stream.failbit := false; Stream.unread := rest |}.
Proof.
  intros Hp Hn Hne Hr v. unfold Stream.extract_long_long.
  rewrite (skipws_blank_app pre _ Hp).
  destruct num as [|c num]; [now elim Hne|].
  pose proof Hn as Hn'. cbn [all_digits] in Hn'. apply andb_true_iff in Hn'.
  destruct Hn' as [Hc _].
  assert (R : Stream.read_digits (String c num ++ rest) =
              (map Chars.digit_value (list_ascii_of_string (String c num)), rest))
    by (apply read_digits_app; assumption).
  cbn [append] in R. cbn [append].
  rewrite (skipws_signed sg c (num ++ rest) Hc).
  assert (N : exists c' s', (sign_text sg ++ String c (num ++ rest))%string = String c' s')
    by (destruct sg; cbn [sign_text append]; eauto).
  destruct N as (c' & s' & N). rewrite N, <- N.
  rewrite (read_sign_signed sg c (num ++ rest) Hc), R.
  cbn [list_ascii_of_string map].
  unfold v, digits_value. cbn [list_ascii_of_string map].
  destruct sg; reflexivity.
Qed.

(** X6: a line made of white space, an optional sign, digits, and a
    remainder that does not go on with a digit stores the number the
    digits denote (when that fits a [long long]); [getint] takes the line
    exactly when the number is in range and the remainder is white space
    only. *)
Theorem getint_accepts_number :
  forall (min max : Z) (pre num rest : string) (sg : sign_mark),
    blank pre = true -> all_digits num = true -> num <> EmptyString ->
    starts_with_digit rest = false ->
    Stream.LLONG_MIN <= signed sg (digits_value num) <= Stream.LLONG_MAX ->
    Stream.stored (input_of (pre ++ sign_text sg ++ num ++ rest))
      = signed sg (digits_value num) /\
    getint_accepts min max (pre ++ sign_text sg ++ num ++ rest)
      = (min <=? signed sg (digits_value num)) &&
        (signed sg (digits_value num) <=? max) && blank rest.
Proof.
  intros min max pre num rest sg Hp Hn Hne Hr Hv.
  unfold getint_accepts, input_of.
  rewrite (extract_number _ pre num rest sg Hp Hn Hne Hr). cbv zeta.
  assert (L1 : (signed sg (digits_value num) <? Stream.LLONG_MIN) = false)
    by (apply Z.ltb_ge; lia).
  assert (L2 : (Stream.LLONG_MAX <? signed sg (digits_value num)) = false)
    by (apply Z.ltb_ge; lia).
  rewrite L1, L2. cbn [Stream.stored]. split; [reflexivity|].
  unfold Stream.extract_string. cbn [Stream.failbit Stream.unread].
  rewrite skipws_blank.
  now destruct ((min <=? _) && (_ <=? max)).
Qed.

Lemma getint_accepts_number_witness :
  Stream.stored (input_of "  -12 x") = -12 /\
  getint_accepts (-20) 20 "  -12 x" = false.
Proof.
  apply (getint_accepts_number (-20) 20 "  "%string "12"%string " x"%string Minus);
    try reflexivity.
  - discriminate.
  - unfold Stream.LLONG_MIN, Stream.LLONG_MAX. simpl. lia.
Defined.

(** X7: a number too large or too small for a [long long] is refused,
    whatever range of [int] is asked for. *)
Theorem getint_refuses_overflow :
  forall (min max : Z) (pre num rest : string) (sg : sign_mark),
    blank pre = true -> all_digits num = true -> num <> EmptyString ->
    starts_with_digit rest = false ->
    INT_MIN <= min -> max <= INT_MAX ->
    ~ (Stream.LLONG_MIN <= signed sg (digits_value num) <= Stream.LLONG_MAX) ->
    getint_accepts min max (pre ++ sign_text sg ++ num ++ rest) = false.
Proof.
  intros min max pre num rest sg Hp Hn Hne Hr Hmin Hmax Hv.
  unfold getint_accepts, input_of.
  rewrite (extract_number _ pre num rest sg Hp Hn Hne Hr). cbv zeta.
  unfold INT_MIN, INT_MAX in *.
  destruct (signed sg (digits_value num) <? Stream.LLONG_MIN) eqn:L1.
  - cbn [Stream.stored].
    replace (min <=? Stream.LLONG_MIN) with false; [reflexivity|].
    symmetry. apply Z.leb_gt. unfold Stream.LLONG_MIN. lia.
  - destruct (Stream.LLONG_MAX <? signed sg (digits_value num)) eqn:L2.
    + cbn [Stream.stored].
      replace (Stream.LLONG_MAX <=? max) with false;
        [now rewrite andb_false_r|].
      symmetry. apply Z.leb_gt. unfold Stream.LLONG_MAX. lia.
    + apply Z.ltb_ge in L1, L2. lia.
Qed.

Lemma getint_refuses_overflow_witness :
  getint_accepts INT_MIN INT_MAX "9223372036854775808" = false.
Proof.
  apply (getint_refuses_overflow INT_MIN INT_MAX EmptyString
           "9223372036854775808"%string EmptyString Unsigned);
    try reflexivity; try discriminate.
  intros [_ H]. vm_compute in H. apply H. reflexivity.
Defined.

(** X8: an empty line, or one of white space only, leaves the sentinel
    [LLONG_MIN] in [possibleInteger] and is refused, whatever range of
    [int] is asked for. *)
Theorem getint_refuses_blank :
  forall (min max : Z) (line : string),
    blank line = true -> INT_MIN <= min ->
    Stream.stored (input_of line) = Stream.LLONG_MIN /\
    getint_accepts min max line = false.
Proof.
  intros min max line Hb Hmin.
  assert (E : Stream.skipws line = EmptyString).
  { clear Hmin. induction line as [|c line IH]; [reflexivity|].
    cbn [blank] in Hb. apply andb_true_iff in Hb. destruct Hb as [Hc Hb].
    cbn [Stream.skipws]. rewrite Hc. now apply IH. }
  unfold getint_accepts, input_of, Stream.extract_long_long. rewrite E.
  cbn [Stream.stored]. split; [reflexivity|].
  replace (min <=? Stream.LLONG_MIN) with false; [reflexivity|].
  symmetry. apply Z.leb_gt. unfold Stream.LLONG_MIN, INT_MIN in *. lia.
Qed.

Lemma getint_refuses_blank_witness :
  Stream.stored (input_of "   ") = Stream.LLONG_MIN /\
  getint_accepts INT_MIN INT_MAX "   " = false.
Proof.
  apply (getint_refuses_blank INT_MIN INT_MAX "   "%string); [reflexivity|].
  unfold INT_MIN; lia.
Defined.

(** ** Whole calls of [getint] *)

Lemma getint_loop_run (min max : Z) (line : string) (rest : list string)
    (skipped : list string) :
  forall p out,
    Forall (fun l => getint_accepts min max l = false) skipped ->
    getint_accepts min max line = true ->
    getint_loop min max (skipped ++ line :: rest) p out =
    (Break (Stream.stored (input_of line)),
     {| cin := rest; cout := out ++ notices (retry_notice min max) skipped |}).
Proof.
  induction skipped as [|l sk IH]; intros p out Hs Hl.
  - simpl. rewrite Hl. unfold notices; simpl. now rewrite app_nil_r.
  - inversion Hs as [|? ? H1 Hs']; subst.
    cbn [app getint_loop]. rewrite H1, notices_cons. apply IH; assumption.
Qed.

Lemma last_stored_cons (l : string) (ls : list string) :
  last_stored (l :: ls) =
  match last_stored ls with
  | Some v => Some v
  | None => Some (Stream.stored (input_of l))
  end.
Proof.
  unfold last_stored. cbn [rev]. destruct (rev ls) as [|x r]; reflexivity.
Qed.

Lemma getint_loop_exhausted (min max : Z) (lines : list string) :
  forall p out,
    Forall (fun l => getint_accepts min max l = false) lines ->
    getint_loop min max lines p out =
    (Eof (match last_stored lines with Some v => Some v | None => p end),
     {| cin := []; cout := out ++ notices (retry_notice min max) lines |}).
Proof.
  induction lines as [|l ls IH]; intros p out Hs.
  - simpl. unfold notices; simpl. now rewrite app_nil_r.
  - inversion Hs as [|? ? H1 Hs']; subst.
    cbn [getint_loop]. rewrite H1, notices_cons, last_stored_cons.
    rewrite (IH _ _ Hs'). now destruct (last_stored ls).
Qed.

(** X10: [getint] refuses the lines that fail its test, writing its
    notice with the range after each, and returns the number of the first
    line that passes; that number lies in the range asked for, and the
    lines after it stay unread. *)
Theorem getint_run :
  forall (min max : Z) (skipped : list string) (line : string)
         (rest : list string) (out : list output),
    INT_MIN <= min -> max <= INT_MAX ->
    Forall (fun l => getint_accepts min max l = false) skipped ->
    getint_accepts min max line = true ->
    getint min max {| cin := skipped ++ line :: rest; cout := out |} =
    (Break (Stream.stored (input_of line)),
     {| cin := rest; cout := out ++ notices (retry_notice min max) skipped |}) /\
    min <= Stream.stored (input_of line) <= max.
Proof.
  intros min max skipped line rest out Hmin Hmax Hs Hl.
  pose proof (getint_accepts_range min max line Hl) as Hr.
  split; [|exact Hr].
  unfold getint; cbn [cin cout].
  rewrite (getint_loop_run min max line rest skipped None out Hs Hl).
  cbn [map_returned]. rewrite to_int_id; [reflexivity|lia].
Qed.

Lemma getint_run_witness :
  getint 1 10 {| cin := ["abc"; "11"; " 7 "; "8"]%string; cout := [] |} =
  (Break 7,
   {| cin := ["8"]%string;
      cout := notices (retry_notice 1 10) ["abc"; "11"]%string |}) /\
  1 <= 7 <= 10.
Proof.
  apply (getint_run 1 10 ["abc"; "11"]%string " 7 "%string ["8"]%string []).
  - unfold INT_MIN; lia.
  - unfold INT_MAX; lia.
  - repeat constructor.
  - reflexivity.
Defined.

(** X11: when no line of the input passes the test, [getint] takes them
    all and returns what the last one left in [possibleInteger], cut down
    to an [int]: a number that may lie outside the range, or that the cut
    may even bring into it. *)
Theorem getint_exhausted :
  forall (min max : Z) (lines : list string) (out : list output),
    Forall (fun l => getint_accepts min max l = false) lines ->
    getint min max {| cin := lines; cout := out |} =
    (Eof (option_map to_int (last_stored lines)),
     {| cin := []; cout := out ++ notices (retry_notice min max) lines |}).
Proof.
  intros min max lines out Hs.
  unfold getint; cbn [cin cout].
  rewrite (getint_loop_exhausted min max lines None out Hs).
  cbn [map_returned]. now destruct (last_stored lines).
Qed.

Lemma getint_exhausted_witness :
  getint 1 10 {| cin := ["12"; "4294967297"]%string; cout := [] |} =
  (Eof (Some 1),
   {| cin := [];
      cout := notices (retry_notice 1 10) ["12"; "4294967297"]%string |}).
Proof.
  apply (getint_exhausted 1 10 ["12"; "4294967297"]%string []).
  repeat constructor.
Defined.

(** * Further properties of [calculateBohrEnergy] *)

(** The sign given to [binary_round_aux] only marks its result. *)
Lemma binary_round_aux_opp (sx : bool) (m e : Z) (l : location) :
  binary_round_aux prec emax (negb sx) m e l
  = SFopp (binary_round_aux prec emax sx m e l).
Proof.
  unfold binary_round_aux.
  destruct (shr_fexp prec emax m e l) as [mrs' e'].
  destruct (shr_fexp prec emax _ e' loc_Exact) as [mrs'' e''].
  destruct (shr_m mrs'') as [|p|p]; [reflexivity| |reflexivity].
  now destruct (e'' <=? emax - prec).
Qed.

Lemma binary_round_opp (sx : bool) (m : positive) (e : Z) :
  binary_round prec emax (negb sx) m e = SFopp (binary_round prec emax sx m e).
Proof.
  unfold binary_round. destruct (shl_align m e _) as [mz ez].
  apply binary_round_aux_opp.
Qed.

Lemma mul_opp_r (x y : double) : mul x (SFopp y) = SFopp (mul x y).
Proof.
  unfold mul.
  destruct x as [sx|sx| |sx mx ex], y as [sy|sy| |sy my ey]; cbn [SFmul SFopp];
    try reflexivity; try (now rewrite <- negb_xorb_r).
  rewrite <- negb_xorb_r. apply binary_round_aux_opp.
Qed.

Lemma mul_opp_l (x y : double) : mul (SFopp x) y = SFopp (mul x y).
Proof.
  unfold mul.
  destruct x as [sx|sx| |sx mx ex], y as [sy|sy| |sy my ey]; cbn [SFmul SFopp];
    try reflexivity; try (now rewrite <- negb_xorb_l).
  rewrite <- negb_xorb_l. apply binary_round_aux_opp.
Qed.

(** Exchanging the two operands of a difference of positive numbers
    negates it, unless they are equal. *)
Lemma sub_swap (ma mb : positive) (ea eb : Z) :
  sub (S754_finite false mb eb) (S754_finite false ma ea)
    = SFopp (sub (S754_finite false ma ea) (S754_finite false mb eb)) \/
  sub (S754_finite false ma ea) (S754_finite false mb eb) = S754_zero false.
Proof.
  unfold sub, SFsub. cbn [cond_Zopp]. rewrite (Z.min_comm eb ea).
  set (A := Zpos (fst (shl_align ma ea (Z.min ea eb)))).
  set (B := Zpos (fst (shl_align mb eb (Z.min ea eb)))).
  destruct (A - B) as [|p|p] eqn:D.
  - right. reflexivity.
  - left. replace (B - A) with (Zneg p) by lia.
    cbn [binary_normalize]. apply (binary_round_opp false).
  - left. replace (B - A) with (Zpos p) by lia.
    cbn [binary_normalize]. rewrite (binary_round_opp false).
    now destruct (binary_round prec emax false p (Z.min ea eb)) as [[|]|[|]| |[|] ? ?].
Qed.

(** X12: exchanging the two levels negates the energy; for a transition
    to a higher level (nInitial < nFinal) the result is the negative of
    the energy of the opposite transition, and strictly below zero. *)
Theorem calculateBohrEnergy_swap :
  forall (Z nInitial nFinal : Z) (eType : EnergyType),
    1 <= Z < 2 ^ 32 ->
    1 <= nInitial -> nInitial < nFinal -> nFinal < 2 ^ 32 ->
    calculateBohrEnergy Z nInitial nFinal eType
      = SFopp (calculateBohrEnergy Z nFinal nInitial eType) /\
    SFltb (calculateBohrEnergy Z nInitial nFinal eType) (S754_zero false) = true.
Proof.
  intros Z nI nF eType HZ H1 H2 H3.
  assert (E : calculateBohrEnergy Z nI nF eType
              = SFopp (calculateBohrEnergy Z nF nI eType)).
  { unfold calculateBohrEnergy.
    pose proof (difference_positive nF nI H1 H2 H3) as P.
    destruct (reciprocal_square_between nI ltac:(lia)) as (ma & ea & Ea & _).
    destruct (reciprocal_square_between nF ltac:(lia)) as (mb & eb & Eb & _).
    rewrite Ea, Eb in *.
    destruct (sub_swap ma mb ea eb) as [S|S].
    - rewrite S, mul_opp_r. destruct eType; [reflexivity|apply mul_opp_l].
    - rewrite S in P. destruct P as [(m & e & P & _)|P]; discriminate P. }
  split; [exact E|]. rewrite E.
  destruct (calculateBohrEnergy_accurate Z nF nI eType HZ H1 H2 H3)
    as (m & e & -> & _).
  reflexivity.
Qed.

Lemma calculateBohrEnergy_swap_witness :
  calculateBohrEnergy 1 1 2 ELECTRON_VOLT
    = SFopp (calculateBohrEnergy 1 2 1 ELECTRON_VOLT) /\
  SFltb (calculateBohrEnergy 1 1 2 ELECTRON_VOLT) (S754_zero false) = true.
Proof. apply (calculateBohrEnergy_swap 1 1 2 ELECTRON_VOLT); lia. Defined.

(** X13: a level 0 is not refused by the function: the division by zero
    gives an infinity.  With nFinal = 0 the result is +infinity, with
    nInitial = 0 it is -infinity, and with both 0 it is NaN. *)
Theorem calculateBohrEnergy_level_zero :
  forall (Z n : Z) (eType : EnergyType),
    1 <= Z < 2 ^ 32 -> 1 <= n < 2 ^ 32 ->
    calculateBohrEnergy Z n 0 eType = S754_infinity false /\
    calculateBohrEnergy Z 0 n eType = S754_infinity true /\
    calculateBohrEnergy Z 0 0 eType = S754_nan.
Proof.
  intros Z n eType HZ Hn. unfold calculateBohrEnergy.
  replace (div (of_Z 1) (pow2 (of_Z 0))) with (S754_infinity false)
    by (vm_compute; reflexivity).
  destruct (reciprocal_square_between n Hn) as (mb & eb & -> & _).
  destruct (scale_between Z HZ) as (mr & er & -> & _).
  rewrite EV_TO_JOULES_value.
  destruct eType; repeat split; reflexivity.
Qed.

Lemma calculateBohrEnergy_level_zero_witness :
  calculateBohrEnergy 1 2 0 JOULES = S754_infinity false /\
  calculateBohrEnergy 1 0 2 JOULES = S754_infinity true /\
  calculateBohrEnergy 1 0 0 JOULES = S754_nan.
Proof. apply (calculateBohrEnergy_level_zero 1 2 JOULES); lia. Defined.

(** X14: an atomic number 0 is not refused either: with nonzero levels
    the energy is then a zero, in either unit. *)
Theorem calculateBohrEnergy_Z_zero :
  forall (nInitial nFinal : Z) (eType : EnergyType),
    1 <= nInitial < 2 ^ 32 -> 1 <= nFinal < 2 ^ 32 ->
    exists s : bool, calculateBohrEnergy 0 nInitial nFinal eType = S754_zero s.
Proof.
  intros nI nF eType HI HF. unfold calculateBohrEnergy.
  rewrite scale_zero, EV_TO_JOULES_value.
  assert (D : is_finite (sub (div (of_Z 1) (pow2 (of_Z nF)))
                             (div (of_Z 1) (pow2 (of_Z nI)))) = true).
  { eapply sub_finite; apply reciprocal_square_between; assumption. }
  destruct (sub _ _) as [s|s| |s m e]; try discriminate D;
    destruct eType; eexists; reflexivity.
Qed.

Lemma calculateBohrEnergy_Z_zero_witness :
  exists s : bool, calculateBohrEnergy 0 3 2 JOULES = S754_zero s.
Proof. apply (calculateBohrEnergy_Z_zero 3 2 JOULES); lia. Defined.

(** * Further properties of [main] *)

Lemma printed_app (a b : list output) : printed (a ++ b) = printed a ++ printed b.
Proof.
  induction a as [|o a IH]; [reflexivity|].
  destruct o; simpl; rewrite ?IH; reflexivity.
Qed.

(** The readers take a prefix of the input and write no number of type
    [double]. *)
Lemma getint_loop_trace (min max : Z) (lines : list string) :
  forall p out r w',
    getint_loop min max lines p out = (r, w') ->
    (exists used, lines = used ++ cin w') /\ printed (cout w') = printed out.
Proof.
  induction lines as [|line lines IH]; intros p out r w'; simpl.
  - intros [= <- <-]; split; [now exists []|reflexivity].
  - destruct (getint_accepts min max line).
    + intros [= <- <-]; split; [now exists [line]|reflexivity].
    + intros H; apply IH in H. destruct H as [[used ->] ->].
      split; [now exists (line :: used)|].
      rewrite printed_app. unfold not_valid; simpl. apply app_nil_r.
Qed.

Lemma choice_loop_trace (message : list output) (first second : list string)
    (lines : list string) :
  printed message = [] ->
  forall out r w',
    choice_loop message first second lines out = (r, w') ->
    (exists used, lines = used ++ cin w') /\ printed (cout w') = printed out /\
    (value_of r = None -> cin w' = []).
Proof.
  intros Hm.
  induction lines as [|line lines IH]; intros out r w'; simpl.
  - intros [= <- <-]; split; [now exists []|split; reflexivity].
  - destruct (found first line).
    { intros [= <- <-]; split; [now exists [line]|split; [reflexivity|discriminate]]. }
    destruct (found second line).
    { intros [= <- <-]; split; [now exists [line]|split; [reflexivity|discriminate]]. }
    intros H; apply IH in H. destruct H as ([used ->] & -> & N).
    split; [now exists (line :: used)|]. split; [|exact N].
    rewrite printed_app. unfold not_valid; simpl. rewrite Hm. apply app_nil_r.
Qed.

Lemma ask_int_trace (prompt : string) (w w' : console) (o : option Z) :
  ask_int prompt w = (o, w') ->
  (exists used, cin w = used ++ cin w') /\ printed (cout w') = printed (cout w) /\
  (o = None -> cin w' = []).
Proof.
  unfold ask_int, getint. cbn [cin cout print].
  destruct (getint_loop _ _ _ _ _) as [r w0] eqn:E. intros [= Ho <-].
  destruct (getint_loop_trace _ _ _ _ _ _ _ E) as [U P].
  split; [exact U|]. split.
  - rewrite P, printed_app. simpl. apply app_nil_r.
  - intros N; subst o. destruct r as [v|[v|]]; try discriminate N.
    now apply getint_loop_Eof in E.
Qed.

Lemma getEnergyType_trace (w w' : console) (r : returned EnergyType) :
  getEnergyType w = (r, w') ->
  (exists used, cin w = used ++ cin w') /\ printed (cout w') = printed (cout w) /\
  (value_of r = None -> cin w' = []).
Proof.
  unfold getEnergyType, getBetweenTwoStringSetOptions.
  destruct (choice_loop _ _ _ _ _) as [r0 w0] eqn:E. intros [= <- <-].
  apply choice_loop_trace in E; [|reflexivity].
  destruct E as (U & P & N). split; [exact U|]. split; [exact P|].
  intros H; apply N. now destruct r0 as [v|[v|]].
Qed.

Lemma getBool_trace (w w' : console) (r : returned bool) :
  getBool w = (r, w') ->
  printed (cout w') = printed (cout w) /\
  match value_of r with
  | None => cin w' = []
  | Some b =>
      exists skipped line,
        cin w = skipped ++ line :: cin w' /\
        (if b then is_true_word line else is_false_word line) = true
  end.
Proof.
  unfold getBool, getBetweenTwoStringSetOptions.
  destruct (choice_loop _ _ _ _ _) as [r0 w0] eqn:E. intros [= <- <-].
  destruct (choice_loop_trace bool_prompt _ _ _ eq_refl _ _ _ E) as (_ & P & N).
  split; [exact P|].
  destruct r0 as [v|[v|]]; cbn [map_returned value_of option_map];
    [|apply choice_loop_Eof in E; discriminate E|now apply N].
  destruct (choice_loop_Break _ _ _ _ _ _ _ E) as (sk & l & Hc & _ & Hl).
  exists sk, l. split; [exact Hc|].
  rewrite <- !found_member, found_validTrues, found_validFalses in Hl.
  destruct Hl as [[-> Hl]|(-> & _ & Hl)]; exact Hl.
Qed.

Lemma unread_trans (a b c : list string) :
  (exists used, a = used ++ b) -> (exists used, b = used ++ c) ->
  exists used, a = used ++ c.
Proof. intros [u ->] [v ->]. exists (u ++ v). now rewrite app_assoc. Qed.

(** Where one pass of the loop leaves the input. *)
Lemma body_cin (s : state) :
  match body s with
  | Again _ s' => exists used, cin (con s) = used ++ cin (con s')
  | Stop s' =>
      calls s' <> [] /\
      exists before line,
        cin (con s) = before ++ line :: cin (con s') /\ is_false_word line = true
  | Undefined s' => cin (con s') = []
  end.
Proof.
  unfold body.
  destruct (ask_int prompt_Z (con s)) as [oZ w1] eqn:E1.
  apply ask_int_trace in E1. destruct E1 as (U1 & _ & N1).
  destruct oZ as [vZ|]; [|now apply N1].
  destruct (ask_int prompt_nInitial w1) as [oI w2] eqn:E2.
  apply ask_int_trace in E2. destruct E2 as (U2 & _ & N2).
  destruct oI as [vI|]; [|now apply N2].
  destruct (ask_int prompt_nFinal w2) as [oF w3] eqn:E3.
  apply ask_int_trace in E3. destruct E3 as (U3 & _ & N3).
  destruct oF as [vF|]; [|now apply N3].
  pose proof (unread_trans _ _ _ (unread_trans _ _ _ U1 U2) U3) as U.
  destruct (vI <? vF); [exact U|].
  destruct (getEnergyType _) as [rT w4] eqn:E4.
  apply getEnergyType_trace in E4. destruct E4 as (U4 & _ & N4).
  cbn [print cin] in U4.
  destruct (value_of rT) as [u|]; [|now apply N4].
  pose proof (unread_trans _ _ _ U U4) as U'.
  destruct (getBool _) as [rB w5] eqn:E5.
  apply getBool_trace in E5. destruct E5 as (_ & B). cbn [print cin] in B.
  destruct (value_of rB) as [[|]|]; cbn [con cin calls].
  - destruct B as (sk & l & Hc & _).
    apply (unread_trans _ _ _ U'). exists (sk ++ [l]).
    now rewrite <- app_assoc.
  - split; [intros N; apply app_eq_nil in N; destruct N; discriminate|].
    destruct B as (sk & l & Hc & Hl). destruct U' as [used ->].
    exists (used ++ sk), l. rewrite Hc, app_assoc. split; [reflexivity|exact Hl].
  - exact B.
Qed.

Lemma loop_Exit (fuel : nat) :
  forall s code s',
    loop fuel s = Exit code s' ->
    code = 0 /\ calls s' <> [] /\
    exists before line,
      cin (con s) = before ++ line :: cin (con s') /\ is_false_word line = true.
Proof.
  induction fuel as [|fuel IH]; intros s code s'; simpl; [discriminate|].
  pose proof (body_cin s) as B.
  destruct (body s) as [b s0|s0|s0]; [|intros [= <- <-]|discriminate].
  - intros H; apply IH in H. destruct H as (Hc & Hn & before & line & Hb & Hl).
    split; [exact Hc|]. split; [exact Hn|].
    destruct B as [used ->]. exists (used ++ before), line.
    rewrite Hb, app_assoc. split; [reflexivity|exact Hl].
  - destruct B as [Hn B]. auto.
Qed.

Lemma loop_Undefined (fuel : nat) :
  forall s s', loop fuel s = UndefinedBehaviour s' -> cin (con s') = [].
Proof.
  induction fuel as [|fuel IH]; intros s s'; simpl; [discriminate|].
  pose proof (body_cin s) as B.
  destruct (body s) as [b s0|s0|s0]; [apply IH|discriminate|].
  now intros [= <-].
Qed.



(** X16: an indeterminate value is used only once the input has run out. *)
Theorem main_undefined :
  forall (lines : list string) (s : state),
    main lines = UndefinedBehaviour s -> cin (con s) = [].
Proof. intros lines s H. now apply loop_Undefined in H. Qed.

Lemma main_undefined_witness :
  exists s,
    main ["1"; "3"; "abc"]%string = UndefinedBehaviour s /\ cin (con s) = [].
Proof.
  eexists. split; [vm_compute; reflexivity|].
  apply (main_undefined ["1"; "3"; "abc"]%string).
  vm_compute. reflexivity.
Defined.

(** X17: when no line of the input stands for no, the run comes to use
    a value that was never assigned, and has read every line by then:
    on such an input [return 0] is not reached without undefined
    behaviour. *)
Theorem main_without_no :
  forall lines : list string,
    Forall (fun line => is_false_word line = false) lines ->
    exists s, main lines = UndefinedBehaviour s /\ cin (con s) = [].
Proof.
  intros lines H.
  destruct (main lines) as [code s|s|] eqn:E.
  - apply loop_Exit in E. destruct E as (_ & _ & before & line & Hc & Hl).
    cbn [con cin] in Hc. rewrite Forall_forall in H.
    rewrite H in Hl; [discriminate|]. rewrite Hc. apply in_elt.
  - exists s. split; [reflexivity|]. now apply loop_Undefined in E.
  - now apply main_total in E.
Qed.

Lemma main_without_no_witness :
  exists s, main ["2"; "2"; "1"; "j"; "yes"; "maybe"]%string = UndefinedBehaviour s /\
            cin (con s) = [].
Proof.
  apply (main_without_no ["2"; "2"; "1"; "j"; "yes"; "maybe"]%string).
  repeat constructor.
Defined.

(** What one pass of the loop adds to the log and to the numbers written. *)
Lemma body_printed (s : state) :
  exists new,
    calls (state_of (body s)) = calls s ++ new /\
    printed (cout (con (state_of (body s))))
    = printed (cout (con s)) ++ map energy_of new.
Proof.
  unfold body.
  destruct (ask_int prompt_Z (con s)) as [oZ w1] eqn:E1.
  apply ask_int_trace in E1. destruct E1 as (_ & P1 & _).
  destruct oZ as [vZ|];
    [|exists []; cbn [state_of con calls map]; now rewrite !app_nil_r].
  destruct (ask_int prompt_nInitial w1) as [oI w2] eqn:E2.
  apply ask_int_trace in E2. destruct E2 as (_ & P2 & _). rewrite P1 in P2.
  destruct oI as [vI|];
    [|exists []; cbn [state_of con calls map]; now rewrite !app_nil_r].
  destruct (ask_int prompt_nFinal w2) as [oF w3] eqn:E3.
  apply ask_int_trace in E3. destruct E3 as (_ & P3 & _). rewrite P2 in P3.
  destruct oF as [vF|];
    [|exists []; cbn [state_of con calls map]; now rewrite !app_nil_r].
  destruct (vI <? vF).
  { exists []; cbn [state_of con calls map print cout].
    rewrite printed_app, P3. simpl. rewrite !app_nil_r. split; reflexivity. }
  destruct (getEnergyType _) as [rT w4] eqn:E4.
  apply getEnergyType_trace in E4. destruct E4 as (_ & P4 & _).
  cbn [print cout] in P4. rewrite printed_app, P3 in P4. simpl in P4.
  rewrite app_nil_r in P4.
  destruct (value_of rT) as [u|];
    [|exists []; cbn [state_of con calls map]; now rewrite !app_nil_r].
  destruct (getBool _) as [rB w5] eqn:E5.
  apply getBool_trace in E5. destruct E5 as (P5 & _).
  cbn [print cout] in P5. rewrite !printed_app, P4 in P5. simpl in P5.
  eexists [_].
  destruct (value_of rB) as [[|]|]; cbn [state_of con calls];
    (split; [reflexivity|exact P5]).
Qed.

Lemma loop_printed (fuel : nat) :
  forall s,
    printed (cout (con s)) = map energy_of (calls s) ->
    match final (loop fuel s) with
    | Some s' => printed (cout (con s')) = map energy_of (calls s')
    | None => True
    end.
Proof.
  induction fuel as [|fuel IH]; intros s H; simpl; [exact I|].
  destruct (body_printed s) as (new & Hc & Hp).
  assert (H' : printed (cout (con (state_of (body s))))
               = map energy_of (calls (state_of (body s)))).
  { rewrite Hp, Hc, map_app, H. reflexivity. }
  destruct (body s) as [b s0|s0|s0]; cbn [state_of final] in *;
    [now apply IH|exact H'|exact H'].
Qed.

(** X18: however the run ends, the numbers the program has written with
    "E = " are the results of the calls of [calculateBohrEnergy] it
    made, one for each call and in the same order. *)
Theorem main_printed :
  forall lines : list string,
    exists s, final (main lines) = Some s /\
              printed (cout (con s)) = map energy_of (calls s).
Proof.
  intros lines.
  pose proof (loop_printed (S (List.length lines))
    {| con := {| cin := lines; cout := welcome |}; calls := [] |} eq_refl) as P.
  fold (main lines) in P. pose proof (main_total lines) as T.
  destruct (main lines) as [code s|s|]; [now exists s|now exists s|now elim T].
Qed.

(** The energy of a call with arguments as [main] passes them is +0 or
    a positive finite number. *)
Lemma energy_of_range (c : call) :
  levels_positive c -> levels_ordered c ->
  energy_of c = S754_zero false \/
  exists m e, energy_of c = S754_finite false m e.
Proof.
  unfold levels_positive, levels_ordered, energy_of, INT_MAX.
  intros (HZ & HI & HF) Ho.
  destruct (Z.eq_dec (arg_nFinal c) (arg_nInitial c)) as [E|NE].
  - left. rewrite E. apply equal_levels_zero; lia.
  - right.
    destruct (calculateBohrEnergy_accurate (arg_Z c) (arg_nInitial c)
                (arg_nFinal c) (arg_eType c)) as (m & e & H & _); try lia.
    now exists m, e.
Qed.

(** X19: up to its [return], or up to the first use of a value that was
    never assigned, whichever comes first, the program writes no energy
    that is negative, infinite or not a number: each one is +0 or a
    positive finite number.  (Nothing is said of what is written after
    the use of such a value.) *)
Theorem main_energies :
  forall lines : list string,
    exists s, final (main lines) = Some s /\
      Forall (fun x => x = S754_zero false \/ exists m e, x = S754_finite false m e)
             (printed (cout (con s))).
Proof.
  intros lines.
  pose proof (loop_printed (S (List.length lines))
    {| con := {| cin := lines; cout := welcome |}; calls := [] |} eq_refl) as P.
  pose proof (loop_calls (fun c => levels_positive c /\ levels_ordered c)
    body_calls (S (List.length lines))
    {| con := {| cin := lines; cout := welcome |}; calls := [] |}
    (Forall_nil _)) as C.
  fold (main lines) in P, C. pose proof (main_total lines) as T.
  assert (G : forall s, final (main lines) = Some s -> log (main lines) = calls s).
  { intros s H. destruct (main lines); simpl in H |- *; congruence. }
  destruct (final (main lines)) as [s|] eqn:F;
    [|destruct (main lines); try discriminate F; now elim T].
  exists s. split; [reflexivity|].
  rewrite P, <- (G s eq_refl). apply Forall_map.
  eapply Forall_impl; [|exact C].
  intros c [Hp Ho]. now apply energy_of_range.
Qed.

(** A line that passes the test of [getint(1)] is the answer to the
    question asked. *)
Lemma ask_int_line (prompt line : string) (lines : list string) (out : list output) :
  getint_accepts 1 INT_MAX line = true ->
  ask_int prompt {| cin := line :: lines; cout := out |}
  = (Some (Stream.stored (input_of line)),
     {| cin := lines; cout := out ++ [NL; Text prompt; NL] |}).
Proof.
  intros H. unfold ask_int, getint. cbn [print cin cout getint_loop].
  rewrite H. cbn [map_returned value_of option_map].
  apply getint_accepts_range in H.
  rewrite to_int_id by (unfold INT_MIN, INT_MAX in *; lia).
  rewrite to_unsigned_id by (unfold INT_MAX in *; lia).
  reflexivity.
Qed.

Lemma getEnergyType_answer (line : string) (lines : list string) (out : list output) :
  is_electron_volt line || is_joule line = true ->
  getEnergyType {| cin := line :: lines; cout := out |}
  = (Break (if is_electron_volt line then ELECTRON_VOLT else JOULES),
     {| cin := lines; cout := out |}).
Proof.
  intros H. unfold getEnergyType, getBetweenTwoStringSetOptions.
  cbn [cin cout choice_loop]. rewrite found_validEV, found_validJoules.
  destruct (is_electron_volt line); [reflexivity|].
  destruct (is_joule line); [reflexivity|discriminate H].
Qed.

Lemma getBool_answer (line : string) (lines : list string) (out : list output) :
  is_true_word line || is_false_word line = true ->
  getBool {| cin := line :: lines; cout := out |}
  = (Break (is_true_word line), {| cin := lines; cout := out |}).
Proof.
  intros H. unfold getBool, getBetweenTwoStringSetOptions.
  cbn [cin cout choice_loop]. rewrite found_validTrues, found_validFalses.
  destruct (is_true_word line); [reflexivity|].
  destruct (is_false_word line); [reflexivity|discriminate H].
Qed.

(** X20: one complete exchange.  Three lines that pass [getint]'s test,
    the final level not above the initial one, a unit and an answer:
    the pass asks its five questions in order, takes exactly these five
    lines, writes the energy of the three numbers in the unit chosen,
    logs that call, and goes round again on yes and ends on no. *)
Theorem body_session :
  forall (s : state) (lZ lI lF lU lB : string) (rest : list string),
    cin (con s) = lZ :: lI :: lF :: lU :: lB :: rest ->
    getint_accepts 1 INT_MAX lZ = true ->
    getint_accepts 1 INT_MAX lI = true ->
    getint_accepts 1 INT_MAX lF = true ->
    Stream.stored (input_of lF) <= Stream.stored (input_of lI) ->
    is_electron_volt lU || is_joule lU = true ->
    is_true_word lB || is_false_word lB = true ->
    let Z := Stream.stored (input_of lZ) in
    let nInitial := Stream.stored (input_of lI) in
    let nFinal := Stream.stored (input_of lF) in
    let eType := if is_electron_volt lU then ELECTRON_VOLT else JOULES in
    let s' :=
      {| con :=
           {| cin := rest;
              cout := cout (con s) ++ [NL; Text prompt_Z; NL]
                      ++ [NL; Text prompt_nInitial; NL]
                      ++ [NL; Text prompt_nFinal; NL]
                      ++ unit_question
                      ++ report Z nInitial nFinal eType
                           (calculateBohrEnergy Z nInitial nFinal eType)
                      ++ continue_question |};
         calls := calls s ++ [{| arg_Z := Z; arg_nInitial := nInitial;
                                 arg_nFinal := nFinal; arg_eType := eType |}] |} in
    body s = if is_true_word lB then Again false s' else Stop s'.
Proof.
  intros [[lines out] log] lZ lI lF lU lB rest Hc HZ HI HF Ho HU HB.
  cbn [con cin] in Hc. subst lines. intros Z nI nF eType s'.
  unfold body. cbn [con calls].
  rewrite (ask_int_line _ _ _ _ HZ), (ask_int_line _ _ _ _ HI),
    (ask_int_line _ _ _ _ HF).
  fold Z nI nF. apply Z.ltb_ge in Ho. fold nI nF in Ho. rewrite Ho.
  unfold print at 1. cbn [cin cout].
  rewrite (getEnergyType_answer _ _ _ HU). cbn [value_of]. fold eType.
  unfold print. cbn [cin cout].
  rewrite (getBool_answer _ _ _ HB). cbn [value_of].
  assert (O : forall o1 o2 o3 o4 o5 : list output,
            ((((out ++ o1) ++ o2) ++ o3) ++ o4) ++ o5
            = out ++ o1 ++ o2 ++ o3 ++ o4 ++ o5).
  { intros. now rewrite <- !app_assoc. }
  rewrite O. subst s'. cbn [con cout calls].
  destruct (is_true_word lB); reflexivity.
Qed.

Lemma body_session_witness :
  body {| con := {| cin := [" 2"; "+3"; "2 "; "Joules"; "N"; "x"]%string; cout := [] |};
          calls := [] |}
  = Stop
      {| con :=
           {| cin := ["x"]%string;
              cout := [] ++ [NL; Text prompt_Z; NL]
                      ++ [NL; Text prompt_nInitial; NL]
                      ++ [NL; Text prompt_nFinal; NL]
                      ++ unit_question
                      ++ report 2 3 2 JOULES (calculateBohrEnergy 2 3 2 JOULES)
                      ++ continue_question |};
         calls := [] ++ [{| arg_Z := 2; arg_nInitial := 3; arg_nFinal := 2;
                            arg_eType := JOULES |}] |}.
Proof.
  apply (body_session
    {| con := {| cin := [" 2"; "+3"; "2 "; "Joules"; "N"; "x"]%string; cout := [] |};
       calls := [] |} " 2" "+3" "2 " "Joules" "N" ["x"]%string);
    try reflexivity.
  vm_compute. discriminate.
Defined.
